(** * Task board: the state container of [src/app/page.js]

    The page component [Home] keeps three pieces of React state
    ([tasks], [newTask], [nextId]) and mirrors the task list into the
    browser's [localStorage] under the key ['tasks'].  This file embeds
    the hydration effect, [addTask] and [handleDelete] as functions on an
    explicit state record, together with a model of the two platform
    functions the code relies on, [JSON.parse] and [JSON.stringify].

    Conventions of the embedding.
    - A JavaScript string is the list of its UTF-16 code units ([list N]).
    - JavaScript numbers are doubles.  A task id and the counter are
      integers ([Z]) that are doubles; [nextId + 1] is the addition of
      doubles, which rounds: at 2^53 it gives 2^53 again.  The ids the
      embedding takes from storage are the integers of magnitude at most
      2^53.  A number read by [JSON.parse] is kept as the decimal
      [m * 10^e] it is written as.
    - [localStorage.setItem] can throw: the storage has a quota.
    - The source is dynamically typed.  The embedding covers the values
      the page is written for: a stored array of objects
      [{id, title, description}] with integer ids.  A stored value that
      is not an array makes the effect throw ([Crashed]); any other
      array is reported as [Untyped] and nothing is stated about it. *)

From Stdlib Require Import ZArith NArith List Lia Ascii String Sorted.
From Stdlib Require Import Decimal DecimalFacts DecimalN DecimalZ.
From stdpp Require Import gmap.

Local Open Scope N_scope.

(** ** JavaScript strings *)

Abbreviation jsstring := (list N).

(** A Rocq string literal read as a sequence of code units. *)
Fixpoint js (s : string) : jsstring :=
  match s with
  | EmptyString => []
  | String a s' => N_of_ascii a :: js s'
  end.

Definition DQUOTE : N := 34.      (* the double quote *)
Definition BACKSLASH : N := 92.
Definition COMMA : N := 44.
Definition COLON : N := 58.
Definition LBRACKET : N := 91.
Definition RBRACKET : N := 93.
Definition LBRACE : N := 123.
Definition RBRACE : N := 125.
Definition MINUS : N := 45.
Definition PLUS : N := 43.
Definition DOT : N := 46.

(** ** The task record built by [addTask] *)

Record Task := mkTask { id : Z; title : jsstring; description : jsstring }.

(** ** JSON values, as [JSON.parse] produces them *)

#[warnings="-register-all"]
Inductive json :=
| Null
| Bool (b : bool)
| Num (m e : Z)                       (* the number m * 10^e *)
| Str (s : jsstring)
| Arr (elems : list json)
| Obj (members : list (jsstring * json)).

Module JSON.

(** *** Serialisation ([JSON.stringify] on an array of task objects) *)

Definition digit_char (d : N) : N := 48 + d.

Fixpoint uint_chars (d : uint) : jsstring :=
  match d with
  | Nil => []
  | D0 d' => digit_char 0 :: uint_chars d'
  | D1 d' => digit_char 1 :: uint_chars d'
  | D2 d' => digit_char 2 :: uint_chars d'
  | D3 d' => digit_char 3 :: uint_chars d'
  | D4 d' => digit_char 4 :: uint_chars d'
  | D5 d' => digit_char 5 :: uint_chars d'
  | D6 d' => digit_char 6 :: uint_chars d'
  | D7 d' => digit_char 7 :: uint_chars d'
  | D8 d' => digit_char 8 :: uint_chars d'
  | D9 d' => digit_char 9 :: uint_chars d'
  end.

(** Number::toString on an integer: decimal digits, with a leading
    minus sign for a negative one. *)
Definition number_to_string (n : Z) : jsstring :=
  match Z.to_int n with
  | Pos d => uint_chars d
  | Neg d => MINUS :: uint_chars d
  end.

Definition hex_char (n : N) : N := if n <? 10 then 48 + n else 87 + n.

(** UnicodeEscape: backslash, [u] and four lowercase hexadecimal digits. *)
Definition unicode_escape (c : N) : jsstring :=
  [BACKSLASH; 117; hex_char (c / 4096 mod 16); hex_char (c / 256 mod 16);
   hex_char (c / 16 mod 16); hex_char (c mod 16)].

Definition is_high_surrogate (c : N) : bool := (55296 <=? c) && (c <=? 56319).
Definition is_low_surrogate (c : N) : bool := (56320 <=? c) && (c <=? 57343).

(** One code unit that is not a surrogate, as QuoteJSONString writes it. *)
Definition quote_unit (c : N) : jsstring :=
  if c =? 8 then [BACKSLASH; 98]            (* \b *)
  else if c =? 9 then [BACKSLASH; 116]      (* \t *)
  else if c =? 10 then [BACKSLASH; 110]     (* \n *)
  else if c =? 12 then [BACKSLASH; 102]     (* \f *)
  else if c =? 13 then [BACKSLASH; 114]     (* \r *)
  else if c =? DQUOTE then [BACKSLASH; DQUOTE]
  else if c =? BACKSLASH then [BACKSLASH; BACKSLASH]
  else if c <? 32 then unicode_escape c
  else [c].

(** The characters between the quotes.  A surrogate pair is copied, a
    lone surrogate is escaped. *)
Fixpoint quote_body (s : jsstring) : jsstring :=
  match s with
  | [] => []
  | c :: r =>
      if is_high_surrogate c then
        match r with
        | d :: r' =>
            if is_low_surrogate d then c :: d :: quote_body r'
            else unicode_escape c ++ quote_body r
        | [] => unicode_escape c
        end
      else if is_low_surrogate c then unicode_escape c ++ quote_body r
      else quote_unit c ++ quote_body r
  end.

Definition quote (s : jsstring) : jsstring :=
  DQUOTE :: quote_body s ++ [DQUOTE].

(** SerializeJSONObject on a task: the own properties in creation order. *)
Definition stringify_task (t : Task) : jsstring :=
  LBRACE :: quote (js "id") ++ COLON :: number_to_string (id t)
    ++ COMMA :: quote (js "title") ++ COLON :: quote (title t)
    ++ COMMA :: quote (js "description") ++ COLON :: quote (description t)
    ++ [RBRACE].

Fixpoint join_commas (parts : list jsstring) : jsstring :=
  match parts with
  | [] => []
  | p :: ps =>
      match ps with
      | [] => p
      | _ :: _ => p ++ COMMA :: join_commas ps
      end
  end.

(** SerializeJSONArray, without indentation. *)
Definition stringify (ts : list Task) : jsstring :=
  LBRACKET :: join_commas (map stringify_task ts) ++ [RBRACKET].

(** *** Parsing ([JSON.parse]) *)

Definition is_ws (c : N) : bool :=
  (c =? 32) || (c =? 9) || (c =? 10) || (c =? 13).

Fixpoint skip_ws (s : jsstring) : jsstring :=
  match s with
  | c :: r => if is_ws c then skip_ws r else s
  | [] => []
  end.

Definition hex_value (c : N) : option N :=
  if (48 <=? c) && (c <=? 57) then Some (c - 48)
  else if (97 <=? c) && (c <=? 102) then Some (c - 87)
  else if (65 <=? c) && (c <=? 70) then Some (c - 55)
  else None.

Definition hex4 (h1 h2 h3 h4 : N) : option N :=
  match hex_value h1, hex_value h2, hex_value h3, hex_value h4 with
  | Some a, Some b, Some c, Some d => Some (a * 4096 + b * 256 + c * 16 + d)
  | _, _, _, _ => None
  end.

(** The character after a backslash, other than [u]. *)
Definition unescape (e : N) : option N :=
  if e =? DQUOTE then Some DQUOTE
  else if e =? BACKSLASH then Some BACKSLASH
  else if e =? 47 then Some 47
  else if e =? 98 then Some 8
  else if e =? 102 then Some 12
  else if e =? 110 then Some 10
  else if e =? 114 then Some 13
  else if e =? 116 then Some 9
  else None.

Definition cons_result (c : N) (r : option (jsstring * jsstring)) :
    option (jsstring * jsstring) :=
  match r with
  | Some (str, rest) => Some (c :: str, rest)
  | None => None
  end.

(** A string, read from just after its opening quote: the decoded
    contents and the text after the closing quote. *)
Fixpoint parse_chars (s : jsstring) : option (jsstring * jsstring) :=
  match s with
  | [] => None
  | c :: r =>
      if c =? DQUOTE then Some ([], r)
      else if c =? BACKSLASH then
        match r with
        | [] => None
        | e :: r' =>
            if e =? 117 then
              match r' with
              | h1 :: h2 :: h3 :: h4 :: r'' =>
                  match hex4 h1 h2 h3 h4 with
                  | Some u => cons_result u (parse_chars r'')
                  | None => None
                  end
              | _ => None
              end
            else
              match unescape e with
              | Some u => cons_result u (parse_chars r')
              | None => None
              end
        end
      else if c <? 32 then None
      else cons_result c (parse_chars r)
  end.

Definition digit_of (c : N) : option (uint -> uint) :=
  if c =? 48 then Some D0 else if c =? 49 then Some D1
  else if c =? 50 then Some D2 else if c =? 51 then Some D3
  else if c =? 52 then Some D4 else if c =? 53 then Some D5
  else if c =? 54 then Some D6 else if c =? 55 then Some D7
  else if c =? 56 then Some D8 else if c =? 57 then Some D9
  else None.

(** The longest run of decimal digits at the front of [s]. *)
Fixpoint read_digits (s : jsstring) : uint * jsstring :=
  match s with
  | [] => (Nil, [])
  | c :: r =>
      match digit_of c with
      | Some D => let (d, rest) := read_digits r in (D d, rest)
      | None => (Nil, s)
      end
  end.

(** The integer part of a JSON number: [0], or digits not starting with [0]. *)
Definition valid_int (d : uint) : bool :=
  match d with
  | Nil => false
  | D0 Nil => true
  | D0 _ => false
  | _ => true
  end.

Definition is_nil (d : uint) : bool :=
  match d with Nil => true | _ => false end.

Definition signed (neg : bool) (d : uint) : Z :=
  Z.of_int (if neg then Neg d else Pos d).

(** The optional fraction: its digits (none when absent) and the rest. *)
Definition read_fraction (s : jsstring) : option (uint * jsstring) :=
  match s with
  | c :: r =>
      if c =? DOT then
        let (f, rest) := read_digits r in
        if is_nil f then None else Some (f, rest)
      else Some (Nil, s)
  | [] => Some (Nil, s)
  end.

(** The optional exponent: its value (0 when absent) and the rest. *)
Definition read_exponent (s : jsstring) : option (Z * jsstring) :=
  match s with
  | c :: r =>
      if (c =? 101) || (c =? 69) then
        let (neg, r1) :=
          match r with
          | sg :: r' =>
              if sg =? MINUS then (true, r')
              else if sg =? PLUS then (false, r')
              else (false, r)
          | [] => (false, r)
          end in
        let (x, rest) := read_digits r1 in
        if is_nil x then None else Some (signed neg x, rest)
      else Some (0%Z, s)
  | [] => Some (0%Z, s)
  end.

Definition parse_number (s : jsstring) : option (json * jsstring) :=
  let (neg, s1) :=
    match s with
    | c :: r => if c =? MINUS then (true, r) else (false, s)
    | [] => (false, s)
    end in
  let (i, s2) := read_digits s1 in
  if valid_int i then
    match read_fraction s2 with
    | Some (f, s3) =>
        match read_exponent s3 with
        | Some (x, s4) =>
            Some (Num (signed neg (Decimal.app i f))
                      (x - Z.of_nat (nb_digits f)), s4)
        | None => None
        end
    | None => None
    end
  else None.

Fixpoint strip_prefix (p s : jsstring) : option jsstring :=
  match p with
  | [] => Some s
  | a :: p' =>
      match s with
      | c :: s' => if c =? a then strip_prefix p' s' else None
      | [] => None
      end
  end.

(** A value that is neither an array nor an object. *)
Definition parse_scalar (s : jsstring) : option (json * jsstring) :=
  match s with
  | [] => None
  | c :: r =>
      if c =? DQUOTE then
        match parse_chars r with
        | Some (str, rest) => Some (Str str, rest)
        | None => None
        end
      else if c =? 110 then
        match strip_prefix (js "null") s with
        | Some rest => Some (Null, rest)
        | None => None
        end
      else if c =? 116 then
        match strip_prefix (js "true") s with
        | Some rest => Some (Bool true, rest)
        | None => None
        end
      else if c =? 102 then
        match strip_prefix (js "false") s with
        | Some rest => Some (Bool false, rest)
        | None => None
        end
      else parse_number s
  end.

Definition starts_with (c : N) (s : jsstring) : bool :=
  match s with
  | a :: _ => a =? c
  | [] => false
  end.

(** Recursive descent over the JSON grammar.  Every call spends one unit
    of [fuel]; [parse] supplies the length of the text. *)
Fixpoint parse_value (fuel : nat) (s : jsstring) : option (json * jsstring) :=
  match fuel with
  | O => None
  | S fuel' =>
      match skip_ws s with
      | [] => None
      | c :: r =>
          if c =? LBRACKET then
            if starts_with RBRACKET (skip_ws r)
            then Some (Arr [], tl (skip_ws r))
            else parse_elements fuel' r []
          else if c =? LBRACE then
            if starts_with RBRACE (skip_ws r)
            then Some (Obj [], tl (skip_ws r))
            else parse_members fuel' r []
          else parse_scalar (c :: r)
      end
  end
with parse_elements (fuel : nat) (s : jsstring) (acc : list json) :
    option (json * jsstring) :=
  match fuel with
  | O => None
  | S fuel' =>
      match parse_value fuel' s with
      | Some (v, r) =>
          match skip_ws r with
          | c :: r' =>
              if c =? COMMA then parse_elements fuel' r' (v :: acc)
              else if c =? RBRACKET then Some (Arr (rev (v :: acc)), r')
              else None
          | [] => None
          end
      | None => None
      end
  end
with parse_members (fuel : nat) (s : jsstring) (acc : list (jsstring * json)) :
    option (json * jsstring) :=
  match fuel with
  | O => None
  | S fuel' =>
      match skip_ws s with
      | c :: r =>
          if c =? DQUOTE then
            match parse_chars r with
            | Some (k, r1) =>
                match skip_ws r1 with
                | c1 :: r2 =>
                    if c1 =? COLON then
                      match parse_value fuel' r2 with
                      | Some (v, r3) =>
                          match skip_ws r3 with
                          | c3 :: r4 =>
                              if c3 =? COMMA
                              then parse_members fuel' r4 ((k, v) :: acc)
                              else if c3 =? RBRACE
                              then Some (Obj (rev ((k, v) :: acc)), r4)
                              else None
                          | [] => None
                          end
                      | None => None
                      end
                    else None
                | [] => None
                end
            | None => None
            end
          else None
      | [] => None
      end
  end.

(** [JSON.parse text]: one value, surrounded by optional white space.
    [None] stands for the SyntaxError the function throws. *)
Definition parse (text : jsstring) : option json :=
  match parse_value (length text) text with
  | Some (v, rest) =>
      match skip_ws rest with
      | [] => Some v
      | _ :: _ => None
      end
  | None => None
  end.

End JSON.

(** ** Numbers *)

(** Task ids and the counter are JavaScript numbers, that is IEEE 754
    doubles.  The ones the page works with are integers, and an integer
    is a double when 53 bits hold its significant digits.
    [round_double z] is the double nearest to the integer [z], a tie
    going to the even significand: the rounding an addition applies to
    its exact result. *)
Definition round_double (z : Z) : Z :=
  let a := Z.abs z in
  let bits := (Z.log2 a + 1)%Z in
  if (bits <=? 53)%Z then z
  else
    let shift := (bits - 53)%Z in
    let q := Z.shiftr a shift in
    let r := (a - Z.shiftl q shift)%Z in
    let half := Z.shiftl 1 (shift - 1) in
    let q' :=
      if (half <? r)%Z || ((r =? half)%Z && Z.odd q) then (q + 1)%Z else q in
    (Z.sgn z * Z.shiftl q' shift)%Z.

(** [a + b] on two integers that are doubles. *)
Definition js_add (a b : Z) : Z := round_double (a + b).

(** [Number.MAX_SAFE_INTEGER], 2^53 - 1. *)
Definition MAX_SAFE_INTEGER : Z := 9007199254740991.

(** The integers the embedding takes as ids: magnitude at most 2^53.
    Each is a double, and Number::toString writes it digit for digit. *)
Definition in_range (n : Z) : bool :=
  (- (MAX_SAFE_INTEGER + 1) <=? n)%Z && (n <=? MAX_SAFE_INTEGER + 1)%Z.

(** ** Platform pieces used by the component *)

Module Math.
Definition max (a b : Z) : Z := Z.max a b.
End Math.

(** [array.reduce(f, init)]: a left fold. *)
Definition reduce {A B : Type} (f : B -> A -> B) (l : list A) (init : B) : B :=
  fold_left f l init.

(** The [Storage] interface of [localStorage].  [getItem] answers [null]
    ([None]) for a key that is not there.  [setItem] stores the item
    unless the storage would outgrow the room the browser grants it; it
    then throws QuotaExceededError ([None]) and stores nothing.  The room
    is counted in code units of keys and values; a quota of 0 is a
    storage that refuses every write. *)
Module Storage.

Record t := mk { items : gmap jsstring jsstring; quota : N }.

Definition getItem (key : jsstring) (s : t) : option jsstring :=
  items s !! key.

Definition weight (key value : jsstring) : N :=
  N.of_nat (length key + length value).

Definition size (m : gmap jsstring jsstring) : N :=
  map_fold (fun key value acc => weight key value + acc) 0 m.

Definition fits (key value : jsstring) (s : t) : bool :=
  size (<[key := value]> (items s)) <=? quota s.

Definition setItem (key value : jsstring) (s : t) : option t :=
  if fits key value s
  then Some {| items := <[key := value]> (items s); quota := quota s |}
  else None.

(** A storage that holds the given items, with room for 5 Mi code units. *)
Definition of_items (m : gmap jsstring jsstring) : t :=
  {| items := m; quota := 5242880 |}.

End Storage.

(** The storage of a browser that has stored nothing yet. *)
Global Instance storage_empty : Empty Storage.t := Storage.of_items ∅.

(** ToString on the argument of [JSON.parse]: [null] becomes the text [null]. *)
Definition ToString (item : option jsstring) : jsstring :=
  match item with
  | Some text => text
  | None => js "null"
  end.

(** The decimal [m * 10^e] is read as the double 0: it is 0, or at most
    2^-1075, half the smallest positive double. *)
Definition rounds_to_zero (m e : Z) : bool :=
  (m =? 0)%Z || ((e <? 0)%Z && (Z.abs m * 2 ^ 1075 <=? 10 ^ (- e))%Z).

(** ToBoolean on a JSON value. *)
Definition truthy (v : json) : bool :=
  match v with
  | Null => false
  | Bool b => b
  | Num m e => negb (rounds_to_zero m e)
  | Str s => match s with [] => false | _ :: _ => true end
  | Arr _ => true
  | Obj _ => true
  end.

(** [a || b] *)
Definition or_else (a b : json) : json := if truthy a then a else b.

(** *** Reading a parsed value at the type the page expects *)

Fixpoint str_eqb (a b : jsstring) : bool :=
  match a, b with
  | [], [] => true
  | x :: a', y :: b' => (x =? y) && str_eqb a' b'
  | _, _ => false
  end.

(** The integer [m * 10^e] denotes, if it is one. *)
Definition as_int (m e : Z) : option Z :=
  if (0 <=? e)%Z then Some (m * 10 ^ e)%Z
  else if (m mod 10 ^ (- e) =? 0)%Z then Some (m / 10 ^ (- e))%Z
  else None.

(** The id a number literal gives: the double nearest to the integer it
    denotes, when that double is in the range of the embedding. *)
Definition as_id (m e : Z) : option Z :=
  match as_int m e with
  | Some z => if in_range (round_double z) then Some (round_double z) else None
  | None => None
  end.

(** An object with exactly the properties [id] (an integer), [title] and
    [description] (strings), in this order. *)
Definition as_task (v : json) : option Task :=
  match v with
  | Obj [(k1, Num m e); (k2, Str t); (k3, Str d)] =>
      if str_eqb k1 (js "id") && str_eqb k2 (js "title")
         && str_eqb k3 (js "description")
      then match as_id m e with
           | Some n => Some (mkTask n t d)
           | None => None
           end
      else None
  | _ => None
  end.

Fixpoint as_task_list (l : list json) : option (list Task) :=
  match l with
  | [] => Some []
  | v :: l' =>
      match as_task v, as_task_list l' with
      | Some t, Some ts => Some (t :: ts)
      | _, _ => None
      end
  end.

Definition as_tasks (v : json) : option (list Task) :=
  match v with
  | Arr l => as_task_list l
  | _ => None
  end.

Definition is_array (v : json) : bool :=
  match v with
  | Arr _ => true
  | _ => false
  end.

(** The object [{id, title, description}] as a JSON value. *)
Definition task_json (t : Task) : json :=
  Obj [(js "id", Num (id t) 0); (js "title", Str (title t));
       (js "description", Str (description t))].

(** ** The component [Home] *)

(** The three [useState] cells of [Home] and the storage of the browser. *)
Record state := mkState {
  tasks : list Task;
  newTask : jsstring;
  nextId : Z;
  localStorage : Storage.t
}.

(** [useState([])], [useState('')], [useState(1)]. *)
Definition initial (ls : Storage.t) : state :=
  {| tasks := []; newTask := []; nextId := 1; localStorage := ls |}.

Definition setTasks (v : list Task) (st : state) : state :=
  {| tasks := v; newTask := newTask st; nextId := nextId st;
     localStorage := localStorage st |}.

Definition setNewTask (v : jsstring) (st : state) : state :=
  {| tasks := tasks st; newTask := v; nextId := nextId st;
     localStorage := localStorage st |}.

Definition setNextId (v : Z) (st : state) : state :=
  {| tasks := tasks st; newTask := newTask st; nextId := v;
     localStorage := localStorage st |}.

(** [localStorage.setItem(key, value)]: the state with the item stored,
    or [None] when the call throws. *)
Definition localStorage_setItem (key value : jsstring) (st : state) :
    option state :=
  match Storage.setItem key value (localStorage st) with
  | Some ls =>
      Some {| tasks := tasks st; newTask := newTask st; nextId := nextId st;
              localStorage := ls |}
  | None => None
  end.

Inductive exn := SyntaxError | TypeError | QuotaExceededError.

(** How the hydration effect ends.
    - [Done]: it completes.
    - [Throw]: it throws before any setter has run; the state is the one
      at the throw.
    - [Crashed]: [setTasks] has put a value that is not an array in the
      list cell, and the call of [reduce] on it throws.
    - [Untyped]: the stored value is an array, but not one of task
      records; the embedding does not follow the effect on it. *)
Inductive outcome :=
| Done (st : state)
| Throw (e : exn) (st : state)
| Crashed (e : exn) (v : json)
| Untyped (v : json).

(** The effect [useEffect(() => {...}, [])] of [Home]; the specification
    calls it [initialize()]. *)
Definition initialize (st : state) : outcome :=
  match JSON.parse (ToString (Storage.getItem (js "tasks") (localStorage st))) with
  | None => Throw SyntaxError st
  | Some parsed =>
      match as_tasks (or_else parsed (Arr [])) with
      | None =>
          if is_array (or_else parsed (Arr [])) then Untyped parsed
          else Crashed TypeError parsed
      | Some savedTasks =>
          let st1 := setTasks savedTasks st in
          let maxId :=
            reduce (fun max task => Math.max max (id task)) savedTasks 0%Z in
          Done (setNextId (js_add maxId 1) st1)
      end
  end.

(** How a call of an event handler ends: the state it leaves, and the
    error it threw if it did.  The setters a handler has called before
    it throws take effect all the same: React applies the queued updates
    when the handler is left, whichever way. *)
Record ending := mkEnding { after : state; thrown : option exn }.

Module Handler.

Definition addTask (st : state) : ending :=
  let newTaskObj :=
    {| id := nextId st; title := newTask st; description := [] |} in
  let updatedTasks := tasks st ++ [newTaskObj] in
  let st1 := setTasks updatedTasks st in
  let st2 := setNewTask [] st1 in
  let st3 := setNextId (js_add (nextId st) 1) st2 in
  match localStorage_setItem (js "tasks") (JSON.stringify updatedTasks) st3 with
  | Some st4 => {| after := st4; thrown := None |}
  | None => {| after := st3; thrown := Some QuotaExceededError |}
  end.

Definition handleDelete (id0 : Z) (st : state) : ending :=
  let newTasks :=
    List.filter (fun task => negb (id task =? id0)%Z) (tasks st) in
  let st1 := setTasks newTasks st in
  match localStorage_setItem (js "tasks") (JSON.stringify newTasks) st1 with
  | Some st2 => {| after := st2; thrown := None |}
  | None => {| after := st1; thrown := Some QuotaExceededError |}
  end.

End Handler.

(** The state the page goes on with after a call of [addTask]. *)
Definition addTask (st : state) : state := after (Handler.addTask st).

(** The state the page goes on with after a call of [handleDelete]. *)
Definition handleDelete (id0 : Z) (st : state) : state :=
  after (Handler.handleDelete id0 st).

(** *** The user's actions *)

(** Typing in the input ([onChange]), the button [Add] ([onClick]) and
    the delete control of a row ([onDelete]). *)
Inductive event :=
| Change (value : jsstring)
| ClickAdd
| ClickDelete (id0 : Z).

Definition handle (st : state) (ev : event) : state :=
  match ev with
  | Change value => setNewTask value st
  | ClickAdd => addTask st
  | ClickDelete id0 => handleDelete id0 st
  end.

Definition run (evs : list event) (st : state) : state :=
  fold_left handle evs st.

(** [addTask(title)] of the specification: the title is typed, then added. *)
Definition addTitle (st : state) (t : jsstring) : state :=
  addTask (setNewTask t st).

(** The id counter computed by the hydration effect, before one is added. *)
Definition maxId (ts : list Task) : Z :=
  reduce (fun max task => Math.max max (id task)) ts 0%Z.

(** The stored text is the serialisation of the list in memory. *)
Definition persisted (st : state) : Prop :=
  Storage.getItem (js "tasks") (localStorage st) = Some (JSON.stringify (tasks st)).

(** Every id of the list is below the counter. *)
Definition below_counter (st : state) : Prop :=
  forall t, In t (tasks st) -> (id t < nextId st)%Z.

(** The tasks a session builds from titles added one after the other,
    the first id being [n]. *)
Fixpoint number_from (n : Z) (titles : list jsstring) : list Task :=
  match titles with
  | [] => []
  | t :: rest => mkTask n t [] :: number_from (js_add n 1) rest
  end.

(** *** Counting actions *)

Definition is_add (ev : event) : bool :=
  match ev with
  | ClickAdd => true
  | _ => false
  end.

(** The number of clicks on [Add] in a sequence of actions. *)
Definition adds (evs : list event) : nat := length (List.filter is_add evs).

(** A click on [Add] or on a delete control, as opposed to typing. *)
Definition is_mutation (ev : event) : bool :=
  match ev with
  | Change _ => false
  | _ => true
  end.

(** *** Fuel *)

(** What a successful run of the parser with fuel [f] guarantees:
    characters were read, and any fuel covering them gives the same
    result. *)
Definition enough {A : Type}
    (run : nat -> jsstring -> A -> option (json * jsstring)) (f : nat) : Prop :=
  forall s a v r,
    run f s a = Some (v, r) ->
    (length r < length s)%nat
    /\ forall f', (length s - length r <= f')%nat -> run f' s a = Some (v, r).

(** *** Sample inputs *)

(** A stored text that is not JSON. *)
Definition corrupted : Storage.t :=
  Storage.of_items {[ js "tasks" := js "{oops" ]}.

(** A stored list whose only id is negative. *)
Definition negative_task : Task := mkTask (-3) (js "x") [].
Definition negative_storage : Storage.t :=
  Storage.of_items {[ js "tasks" := JSON.stringify [negative_task] ]}.

(** A stored list whose only id is 2^53. *)
Definition large_task : Task := mkTask (MAX_SAFE_INTEGER + 1) (js "x") [].
Definition large_storage : Storage.t :=
  Storage.of_items {[ js "tasks" := JSON.stringify [large_task] ]}.

(** A storage that refuses every write, holding an older list. *)
Definition old_text : jsstring := JSON.stringify [mkTask 9 (js "old") []].
Definition full_storage : Storage.t :=
  {| Storage.items := {[ js "tasks" := old_text ]}; Storage.quota := 0 |}.

(** Two tasks that share the id 1, and a list of two distinct ids. *)
Definition twins : list Task := [mkTask 1 (js "a") []; mkTask 1 (js "b") []].
Definition twins_state : state :=
  {| tasks := twins; newTask := []; nextId := 2; localStorage := ∅ |}.
Definition pair_state : state :=
  {| tasks := [mkTask 1 (js "a") []; mkTask 2 (js "b") []];
     newTask := []; nextId := 3; localStorage := ∅ |}.

(** The texts [null], [0], [false] and the empty string literal. *)
Definition falsy_texts : list jsstring :=
  [js "null"; js "0"; js "false"; [DQUOTE; DQUOTE]].

(** A string literal between double quotes. *)
Definition dq (s : string) : jsstring := DQUOTE :: js s ++ [DQUOTE].

(** The text of an array holding one object: id 5, title x, empty
    description. *)
Definition singleton_text : jsstring :=
  js "[{" ++ dq "id" ++ js ":5," ++ dq "title" ++ js ":" ++ dq "x" ++ js ","
    ++ dq "description" ++ js ":" ++ dq EmptyString ++ js "}]".

(** The same kind of text as another writer could lay it out: white
    space, a fraction and an exponent in the id, an escape in the title. *)
Definition spaced_text : jsstring :=
  js " [ { " ++ dq "id" ++ js " : 7.0e0 , " ++ dq "title" ++ js ": "
    ++ dq "t\u0041" ++ js " ," ++ dq "description" ++ js ":"
    ++ dq EmptyString ++ js " } ] ".

(** * Facts about the JSON model *)

Module JSONFacts.
Import JSON.

(** ** Strings: what [quote] writes, [parse_chars] reads back *)

Lemma hex_value_hex_char n : n < 16 -> hex_value (hex_char n) = Some n.
Proof.
  intros Hn.
  assert (Hcases : In n [0;1;2;3;4;5;6;7;8;9;10;11;12;13;14;15]).
  { simpl. lia. }
  simpl in Hcases.
  repeat (destruct Hcases as [<- | Hcases]; [reflexivity |]).
  contradiction.
Qed.

Lemma hex4_unicode_escape c :
  c < 65536 ->
  hex4 (hex_char (c / 4096 mod 16)) (hex_char (c / 256 mod 16))
       (hex_char (c / 16 mod 16)) (hex_char (c mod 16)) = Some c.
Proof.
  intros Hc. unfold hex4.
  rewrite !hex_value_hex_char by (apply N.mod_lt; discriminate).
  f_equal.
  pose proof (N.div_mod c 16 ltac:(discriminate)) as H0.
  pose proof (N.div_mod (c / 16) 16 ltac:(discriminate)) as H1.
  pose proof (N.div_mod (c / 16 / 16) 16 ltac:(discriminate)) as H2.
  rewrite (N.Div0.div_div c 16 16) in H1, H2.
  rewrite (N.Div0.div_div c (16 * 16) 16) in H2.
  change (16 * 16) with 256 in *. change (256 * 16) with 4096 in *.
  assert (H3 : c / 4096 < 16) by (apply N.Div0.div_lt_upper_bound; lia).
  rewrite (N.mod_small (c / 4096) 16 H3).
  assert (H4 : c / 4096 / 16 = 0) by (apply N.div_small; exact H3).
  lia.
Qed.

Lemma parse_chars_unicode_escape c tail :
  c < 65536 ->
  parse_chars (unicode_escape c ++ tail) = cons_result c (parse_chars tail).
Proof.
  intros Hc. unfold unicode_escape.
  cbn [app parse_chars].
  change (BACKSLASH =? DQUOTE) with false.
  change (BACKSLASH =? BACKSLASH) with true.
  change (117 =? 117) with true. cbv iota.
  now rewrite hex4_unicode_escape.
Qed.

(** A code unit the parser copies: neither a quote, nor a backslash,
    nor a control character. *)
Lemma parse_chars_plain c tail :
  c <> DQUOTE -> c <> BACKSLASH -> 32 <= c ->
  parse_chars (c :: tail) = cons_result c (parse_chars tail).
Proof.
  intros Hq Hb Hc. cbn [parse_chars].
  apply N.eqb_neq in Hq, Hb. rewrite Hq, Hb.
  assert (Hlt : (c <? 32) = false) by (apply N.ltb_ge; exact Hc).
  now rewrite Hlt.
Qed.

Lemma parse_chars_quote_unit c tail :
  parse_chars (quote_unit c ++ tail) = cons_result c (parse_chars tail).
Proof.
  unfold quote_unit.
  destruct (c =? 8) eqn:E8; [apply N.eqb_eq in E8; subst; reflexivity|].
  destruct (c =? 9) eqn:E9; [apply N.eqb_eq in E9; subst; reflexivity|].
  destruct (c =? 10) eqn:E10; [apply N.eqb_eq in E10; subst; reflexivity|].
  destruct (c =? 12) eqn:E12; [apply N.eqb_eq in E12; subst; reflexivity|].
  destruct (c =? 13) eqn:E13; [apply N.eqb_eq in E13; subst; reflexivity|].
  destruct (c =? DQUOTE) eqn:Eq; [apply N.eqb_eq in Eq; subst; reflexivity|].
  destruct (c =? BACKSLASH) eqn:Eb; [apply N.eqb_eq in Eb; subst; reflexivity|].
  destruct (c <? 32) eqn:Ec.
  - apply N.ltb_lt in Ec. apply parse_chars_unicode_escape. lia.
  - apply N.eqb_neq in Eq, Eb. apply N.ltb_ge in Ec.
    now apply parse_chars_plain.
Qed.

Lemma high_surrogate_range c :
  is_high_surrogate c = true -> 55296 <= c <= 56319.
Proof.
  unfold is_high_surrogate. intros H. apply andb_prop in H as [H1 H2].
  apply N.leb_le in H1, H2. lia.
Qed.

Lemma low_surrogate_range c :
  is_low_surrogate c = true -> 56320 <= c <= 57343.
Proof.
  unfold is_low_surrogate. intros H. apply andb_prop in H as [H1 H2].
  apply N.leb_le in H1, H2. lia.
Qed.

Lemma parse_chars_surrogate c tail :
  55296 <= c <= 57343 ->
  parse_chars (c :: tail) = cons_result c (parse_chars tail).
Proof.
  intros Hc. apply parse_chars_plain; unfold DQUOTE, BACKSLASH; lia.
Qed.

(** [quote_body] recurses on the tail and, after a surrogate pair, on
    the tail of the tail: the induction is on the length. *)
Lemma parse_chars_quote_body_len n :
  forall s rest, (length s <= n)%nat ->
    parse_chars (quote_body s ++ DQUOTE :: rest) = Some (s, rest).
Proof.
  induction n as [| n IH]; intros s rest Hlen.
  - destruct s; [reflexivity | simpl in Hlen; lia].
  - destruct s as [| c r]; [reflexivity |].
    simpl in Hlen. cbn [quote_body].
    destruct (is_high_surrogate c) eqn:Hh.
    + apply high_surrogate_range in Hh.
      destruct r as [| d r'].
      * rewrite parse_chars_unicode_escape by lia. reflexivity.
      * destruct (is_low_surrogate d) eqn:Hl.
        -- apply low_surrogate_range in Hl. simpl in Hlen.
           cbn [app].
           rewrite parse_chars_surrogate by lia.
           rewrite parse_chars_surrogate by lia.
           rewrite IH by lia. reflexivity.
        -- rewrite <- app_assoc.
           rewrite parse_chars_unicode_escape by lia.
           rewrite IH by lia. reflexivity.
    + destruct (is_low_surrogate c) eqn:Hl.
      * apply low_surrogate_range in Hl.
        rewrite <- app_assoc.
        rewrite parse_chars_unicode_escape by lia.
        rewrite IH by lia. reflexivity.
      * rewrite <- app_assoc, parse_chars_quote_unit.
        rewrite IH by lia. reflexivity.
Qed.

Lemma parse_chars_quote_body s rest :
  parse_chars (quote_body s ++ DQUOTE :: rest) = Some (s, rest).
Proof. now apply (parse_chars_quote_body_len (length s)). Qed.

(** A quoted string is read back as a scalar. *)
Lemma parse_scalar_quote s rest :
  parse_scalar (quote s ++ rest) = Some (Str s, rest).
Proof.
  unfold quote. cbn [app parse_scalar].
  change (DQUOTE =? DQUOTE) with true. cbv iota.
  rewrite <- app_assoc. cbn [app].
  now rewrite parse_chars_quote_body.
Qed.

(** ** Numbers: the digits of an integer are read back *)

Lemma read_digits_uint_chars d c rest :
  digit_of c = None ->
  read_digits (uint_chars d ++ c :: rest) = (d, c :: rest).
Proof.
  intros Hc.
  induction d; cbn [uint_chars app read_digits];
    [ now rewrite Hc | .. ];
    match goal with
    | |- context [digit_of (digit_char ?k)] =>
        let v := eval vm_compute in (digit_of (digit_char k)) in
        change (digit_of (digit_char k)) with v
    end;
    cbv iota; now rewrite IHd.
Qed.

Lemma valid_int_unorm d : valid_int (unorm d) = true.
Proof.
  unfold unorm.
  pose proof (nzhead_nonzero d) as Hnz.
  destruct (nzhead d) as [| d' | | | | | | | | | ]; try reflexivity.
  now contradiction (Hnz d').
Qed.

Lemma to_uint_unorm p : Pos.to_uint p = unorm (Pos.to_uint p).
Proof.
  rewrite <- DecimalPos.Unsigned.to_of, DecimalPos.Unsigned.of_to.
  reflexivity.
Qed.

Lemma valid_int_to_uint p : valid_int (Pos.to_uint p) = true.
Proof. rewrite to_uint_unorm. apply valid_int_unorm. Qed.

Lemma parse_number_digits neg d c rest :
  valid_int d = true ->
  digit_of c = None -> c <> DOT -> c <> 101 -> c <> 69 ->
  (let (i, s2) := read_digits (uint_chars d ++ c :: rest) in
   if valid_int i then
     match read_fraction s2 with
     | Some (f, s3) =>
         match read_exponent s3 with
         | Some (x, s4) =>
             Some (Num (signed neg (Decimal.app i f))
                       (x - Z.of_nat (nb_digits f)), s4)
         | None => None
         end
     | None => None
     end
   else None) = Some (Num (signed neg d) 0, c :: rest).
Proof.
  intros Hv Hc Hdot He HE.
  rewrite read_digits_uint_chars by exact Hc.
  rewrite Hv. unfold read_fraction, read_exponent.
  apply N.eqb_neq in Hdot, He, HE.
  rewrite Hdot. rewrite He, HE. cbn [orb].
  rewrite DecimalFacts.app_nil_r. reflexivity.
Qed.

Lemma parse_number_unsigned d c rest :
  valid_int d = true ->
  digit_of c = None -> c <> DOT -> c <> 101 -> c <> 69 ->
  parse_number (uint_chars d ++ c :: rest)
  = Some (Num (signed false d) 0, c :: rest).
Proof.
  intros Hv Hc Hdot He HE.
  rewrite <- (parse_number_digits false d c rest Hv Hc Hdot He HE).
  unfold parse_number.
  destruct d; [discriminate Hv | ..]; cbn [uint_chars app];
    match goal with
    | |- context [digit_char ?k =? MINUS] =>
        change (digit_char k =? MINUS) with false
    end; reflexivity.
Qed.

Lemma parse_number_to_string n c rest :
  digit_of c = None -> c <> DOT -> c <> 101 -> c <> 69 ->
  parse_number (number_to_string n ++ c :: rest) = Some (Num n 0, c :: rest).
Proof.
  intros Hc Hdot He HE.
  unfold number_to_string.
  destruct n as [| p | p]; cbn [Z.to_int].
  - now rewrite parse_number_unsigned.
  - rewrite parse_number_unsigned by auto using valid_int_to_uint.
    unfold signed.
    pose proof (DecimalZ.of_to (Zpos p)) as E. cbn [Z.to_int] in E.
    now rewrite E.
  - unfold parse_number. cbn [app].
    change (MINUS =? MINUS) with true. cbv iota.
    rewrite (parse_number_digits true) by auto using valid_int_to_uint.
    unfold signed.
    pose proof (DecimalZ.of_to (Zneg p)) as E. cbn [Z.to_int] in E.
    now rewrite E.
Qed.

(** ** Values: one step of the recursive descent *)

Ltac norm_app :=
  repeat (rewrite <- app_assoc || rewrite <- app_comm_cons); cbn [app].

Lemma parse_value_quote f s rest :
  parse_value (S f) (quote s ++ rest) = Some (Str s, rest).
Proof. rewrite <- parse_scalar_quote. reflexivity. Qed.

Lemma parse_value_number f n c rest :
  digit_of c = None -> c <> DOT -> c <> 101 -> c <> 69 ->
  parse_value (S f) (number_to_string n ++ c :: rest)
  = Some (Num n 0, c :: rest).
Proof.
  intros Hc Hdot He HE.
  rewrite <- (parse_number_to_string n c rest Hc Hdot He HE).
  unfold number_to_string.
  destruct n as [| p | p]; cbn [Z.to_int]; try reflexivity.
  pose proof (DecimalPos.Unsigned.to_uint_nonnil p) as Hnil.
  destruct (Pos.to_uint p); [contradiction | ..]; reflexivity.
Qed.

Lemma parse_value_object f k tail :
  parse_value (S f) (LBRACE :: quote k ++ tail)
  = parse_members f (quote k ++ tail) [].
Proof. reflexivity. Qed.

Lemma parse_value_array_of_objects f tail :
  parse_value (S f) (LBRACKET :: LBRACE :: tail)
  = parse_elements f (LBRACE :: tail) [].
Proof. reflexivity. Qed.

(** One member [key:value] of an object, and what follows it. *)
Lemma parse_members_quote f k tail acc :
  parse_members (S f) (quote k ++ COLON :: tail) acc
  = match parse_value f tail with
    | Some (v, r3) =>
        match skip_ws r3 with
        | c3 :: r4 =>
            if c3 =? COMMA then parse_members f r4 ((k, v) :: acc)
            else if c3 =? RBRACE then Some (Obj (rev ((k, v) :: acc)), r4)
            else None
        | [] => None
        end
    | None => None
    end.
Proof.
  unfold quote. cbn [parse_members app skip_ws].
  change (is_ws DQUOTE) with false. cbv iota.
  change (DQUOTE =? DQUOTE) with true. cbv iota.
  rewrite <- app_assoc. cbn [app].
  rewrite parse_chars_quote_body.
  reflexivity.
Qed.

(** ** A task object, then an array of them *)

Lemma parse_value_task f t rest :
  parse_value (5 + f) (stringify_task t ++ rest) = Some (task_json t, rest).
Proof.
  unfold stringify_task. norm_app.
  change (5 + f)%nat with (S (S (S (S (S f))))).
  rewrite parse_value_object.
  rewrite parse_members_quote.
  rewrite parse_value_number by (reflexivity || discriminate).
  cbn [skip_ws]. change (is_ws COMMA) with false. cbv iota.
  change (COMMA =? COMMA) with true. cbv iota.
  rewrite parse_members_quote, parse_value_quote.
  cbn [skip_ws]. change (is_ws COMMA) with false. cbv iota.
  change (COMMA =? COMMA) with true. cbv iota.
  rewrite parse_members_quote, parse_value_quote.
  reflexivity.
Qed.

Lemma join_commas_cons p q ps :
  join_commas (p :: q :: ps) = p ++ COMMA :: join_commas (q :: ps).
Proof. reflexivity. Qed.

Lemma stringify_task_head t :
  exists tail, stringify_task t = LBRACE :: tail.
Proof. unfold stringify_task. eexists. reflexivity. Qed.

Lemma parse_elements_tasks ts :
  forall f t acc rest,
    parse_elements (length ts + 6 + f)
      (join_commas (map stringify_task (t :: ts)) ++ RBRACKET :: rest) acc
    = Some (Arr (rev acc ++ map task_json (t :: ts)), rest).
Proof.
  induction ts as [| t' ts IH]; intros f t acc rest.
  - cbn [length map join_commas Nat.add parse_elements].
    rewrite (parse_value_task f).
    cbn [skip_ws]. change (is_ws RBRACKET) with false. cbv iota.
    change (RBRACKET =? COMMA) with false.
    change (RBRACKET =? RBRACKET) with true. cbv iota.
    reflexivity.
  - cbn [map]. rewrite join_commas_cons.
    change (stringify_task t' :: map stringify_task ts)
      with (map stringify_task (t' :: ts)).
    norm_app.
    change (length (t' :: ts) + 6 + f)%nat
      with (S (length ts + 6 + f)).
    cbn [parse_elements].
    replace (length ts + 6 + f)%nat with (5 + (length ts + 1 + f))%nat at 1
      by lia.
    rewrite parse_value_task.
    cbn [skip_ws]. change (is_ws COMMA) with false. cbv iota.
    change (COMMA =? COMMA) with true. cbv iota.
    replace (5 + (length ts + 1 + f))%nat with (length ts + 6 + f)%nat by lia.
    rewrite IH. cbn [rev map]. now rewrite <- app_assoc.
Qed.

Lemma length_stringify_task t : (6 <= length (stringify_task t))%nat.
Proof.
  unfold stringify_task, quote.
  repeat (progress cbn [length] || rewrite length_app). lia.
Qed.

Lemma length_join_commas t ts :
  (6 + length ts <= length (join_commas (map stringify_task (t :: ts))))%nat.
Proof.
  revert t. induction ts as [| t' ts IH]; intros t.
  - cbn [map join_commas length]. pose proof (length_stringify_task t). lia.
  - cbn [map]. rewrite join_commas_cons.
    change (stringify_task t' :: map stringify_task ts)
      with (map stringify_task (t' :: ts)).
    rewrite length_app. cbn [length]. specialize (IH t').
    pose proof (length_stringify_task t). lia.
Qed.

(** [JSON.parse (JSON.stringify ts)] is the array of the task objects. *)
Lemma parse_stringify ts :
  parse (stringify ts) = Some (Arr (map task_json ts)).
Proof.
  destruct ts as [| t ts]; [reflexivity |].
  unfold parse, stringify.
  set (body := join_commas (map stringify_task (t :: ts))).
  assert (Hfuel : exists f,
    length (LBRACKET :: body ++ [RBRACKET]) = S (length ts + 6 + f)).
  { pose proof (length_join_commas t ts) as Hlen. fold body in Hlen.
    exists (length body - (6 + length ts) + 1)%nat.
    cbn [length]. rewrite length_app. cbn [length]. lia. }
  destruct Hfuel as [f ->].
  assert (Hhead : exists tail, body = LBRACE :: tail).
  { unfold body. cbn [map join_commas].
    destruct (stringify_task_head t) as [tail ->].
    destruct (map stringify_task ts); eexists; reflexivity. }
  destruct Hhead as [tail Htail].
  rewrite Htail at 1. cbn [app].
  rewrite parse_value_array_of_objects.
  change (LBRACE :: tail ++ [RBRACKET]) with ((LBRACE :: tail) ++ [RBRACKET]).
  rewrite <- Htail. unfold body.
  rewrite parse_elements_tasks. reflexivity.
Qed.

(** ** Reading the parsed value as tasks *)

Lemma str_eqb_refl s : str_eqb s s = true.
Proof. induction s; cbn; [reflexivity | now rewrite N.eqb_refl]. Qed.

Lemma task_json_inj t1 t2 : task_json t1 = task_json t2 -> t1 = t2.
Proof.
  destruct t1, t2. unfold task_json. cbn [id title description].
  now intros [= -> -> ->].
Qed.

Lemma map_task_json_inj ts1 : forall ts2,
  map task_json ts1 = map task_json ts2 -> ts1 = ts2.
Proof.
  induction ts1 as [| t ts1 IH]; intros [| t' ts2]; cbn [map];
    try discriminate; [reflexivity |].
  intros H.
  assert (Ht : task_json t = task_json t') by congruence.
  assert (Hts : map task_json ts1 = map task_json ts2) by congruence.
  apply task_json_inj in Ht as ->.
  now rewrite (IH ts2 Hts).
Qed.

End JSONFacts.

(** * Facts about numbers *)

Module NumberFacts.
Local Open Scope Z_scope.

Lemma in_range_spec n :
  in_range n = true
  <-> (- (MAX_SAFE_INTEGER + 1) <= n <= MAX_SAFE_INTEGER + 1)%Z.
Proof.
  unfold in_range. rewrite andb_true_iff, !Z.leb_le. reflexivity.
Qed.

(** An integer below 2^53 in magnitude is a double. *)
Lemma round_double_small z :
  (Z.abs z <= MAX_SAFE_INTEGER)%Z -> round_double z = z.
Proof.
  intros Hz. unfold round_double. cbv zeta.
  assert (Hbits : (Z.log2 (Z.abs z) + 1 <=? 53)%Z = true).
  { apply Z.leb_le.
    destruct (Z.eq_dec (Z.abs z) 0%Z) as [-> | Hnz]; [cbn; lia |].
    assert (Hlog : (Z.log2 (Z.abs z) < 53)%Z).
    { apply Z.log2_lt_pow2; [lia |].
      change (2 ^ 53)%Z with (MAX_SAFE_INTEGER + 1)%Z. lia. }
    lia. }
  now rewrite Hbits.
Qed.

(** So is 2^53 itself, with either sign. *)
Lemma round_double_in_range z : in_range z = true -> round_double z = z.
Proof.
  intros Hz. apply in_range_spec in Hz.
  destruct (Z.eq_dec z (MAX_SAFE_INTEGER + 1)) as [-> | Hhi];
    [reflexivity |].
  destruct (Z.eq_dec z (- (MAX_SAFE_INTEGER + 1))) as [-> | Hlo];
    [reflexivity |].
  apply round_double_small. lia.
Qed.

(** Below 2^53 the counter counts ... *)
Lemma js_add_succ c :
  (- (MAX_SAFE_INTEGER + 1) <= c <= MAX_SAFE_INTEGER)%Z ->
  js_add c 1 = (c + 1)%Z.
Proof.
  intros Hc. unfold js_add. apply round_double_in_range, in_range_spec. lia.
Qed.

(** ... and at 2^53 it stays where it is. *)
Lemma js_add_top : js_add (MAX_SAFE_INTEGER + 1) 1 = (MAX_SAFE_INTEGER + 1)%Z.
Proof. reflexivity. Qed.

Lemma js_add_min c :
  (- (MAX_SAFE_INTEGER + 1) <= c <= MAX_SAFE_INTEGER + 1)%Z ->
  js_add c 1 = Z.min (c + 1) (MAX_SAFE_INTEGER + 1).
Proof.
  intros Hc. destruct (Z.eq_dec c (MAX_SAFE_INTEGER + 1)) as [-> | Hne].
  - reflexivity.
  - rewrite js_add_succ by lia. lia.
Qed.

End NumberFacts.

(** * Facts about the typed reading *)

Module TypedFacts.
Import JSON.

Lemma as_task_task_json t :
  in_range (id t) = true -> as_task (task_json t) = Some t.
Proof.
  intros Hr. destruct t as [i ti de].
  cbn [task_json as_task id title description] in *.
  rewrite !JSONFacts.str_eqb_refl. cbn [andb].
  unfold as_id, as_int. cbn [Z.leb Z.compare Z.pow].
  rewrite Z.mul_1_r, (NumberFacts.round_double_in_range i Hr), Hr.
  reflexivity.
Qed.

Lemma as_task_list_task_json ts :
  (forall t, In t ts -> in_range (id t) = true) ->
  as_task_list (map task_json ts) = Some ts.
Proof.
  induction ts as [| t ts IH]; intros Hr; [reflexivity |].
  cbn [map as_task_list].
  rewrite as_task_task_json by (apply Hr; now left).
  rewrite IH; [reflexivity |]. intros t' Hin. apply Hr. now right.
Qed.

Lemma as_task_in_range v t : as_task v = Some t -> in_range (id t) = true.
Proof.
  unfold as_task, as_id.
  repeat match goal with
         | |- match ?x with _ => _ end = _ -> _ =>
             destruct x eqn:?; try discriminate
         | |- (if ?b then _ else _) = _ -> _ =>
             destruct b eqn:?; try discriminate
         end.
  intros [= <-]. cbn [id].
  match goal with
  | H : match as_int ?m ?e with _ => _ end = Some _ |- _ =>
      destruct (as_int m e) as [z0 |]; [| discriminate H];
      destruct (in_range (round_double z0)) eqn:Hr; [| discriminate H];
      injection H as <-; exact Hr
  end.
Qed.

Lemma as_task_list_in_range l : forall ts,
  as_task_list l = Some ts -> forall t, In t ts -> in_range (id t) = true.
Proof.
  induction l as [| v l IH]; intros ts H; cbn [as_task_list] in H.
  - injection H as <-. intros t [].
  - destruct (as_task v) as [t0 |] eqn:Hv; [| discriminate].
    destruct (as_task_list l) as [ts0 |]; [| discriminate].
    injection H as <-. intros t [<- | Hin].
    + now apply (as_task_in_range v).
    + now apply (IH ts0).
Qed.

End TypedFacts.

(** * The fuel of the parser is enough

    [JSON.parse] runs the recursive descent with as much fuel as the text
    has characters.  Every unit of fuel spent is paid for by a character
    read, so a text that some amount of fuel parses is parsed by
    [JSON.parse]: [None] always is a syntax error. *)

Module FuelFacts.
Import JSON.

Lemma length_skip_ws s : (length (skip_ws s) <= length s)%nat.
Proof.
  induction s as [| c r IH]; cbn [skip_ws]; [lia |].
  destruct (is_ws c); cbn [length] in *; lia.
Qed.

Lemma skip_ws_cons s c r :
  skip_ws s = c :: r -> (length r < length s)%nat.
Proof.
  intros H. pose proof (length_skip_ws s) as Hle.
  rewrite H in Hle. cbn [length] in Hle. lia.
Qed.

Lemma cons_result_inv c o k r :
  cons_result c o = Some (k, r) ->
  exists k', o = Some (k', r) /\ k = c :: k'.
Proof.
  destruct o as [[k' r'] |]; [| discriminate].
  intros [= <- <-]. now exists k'.
Qed.

Lemma parse_chars_shorter_len n : forall s k r,
  (length s <= n)%nat ->
  parse_chars s = Some (k, r) -> (length r < length s)%nat.
Proof.
  induction n as [| n IH]; intros s k r Hlen H.
  - destruct s; [discriminate | cbn [length] in Hlen; lia].
  - destruct s as [| c s']; [discriminate |].
    cbn [parse_chars] in H. cbn [length] in Hlen.
    destruct (c =? DQUOTE).
    { injection H as <- <-. cbn [length]. lia. }
    destruct (c =? BACKSLASH).
    { destruct s' as [| e r']; [discriminate |].
      destruct (e =? 117).
      - destruct r' as [| h1 [| h2 [| h3 [| h4 r'']]]]; try discriminate.
        destruct (hex4 h1 h2 h3 h4); [| discriminate].
        apply cons_result_inv in H as (k' & H & ->).
        apply IH in H; cbn [length] in *; lia.
      - destruct (unescape e); [| discriminate].
        apply cons_result_inv in H as (k' & H & ->).
        apply IH in H; cbn [length] in *; lia. }
    destruct (c <? 32); [discriminate |].
    apply cons_result_inv in H as (k' & H & ->).
    apply IH in H; cbn [length] in *; lia.
Qed.

Lemma parse_chars_shorter s k r :
  parse_chars s = Some (k, r) -> (length r < length s)%nat.
Proof. now apply (parse_chars_shorter_len (length s)). Qed.

Lemma digit_of_nonnil c D d : digit_of c = Some D -> D d <> Nil.
Proof.
  unfold digit_of.
  repeat match goal with
         | |- (if ?b then _ else _) = _ -> _ => destruct b
         end; intros [= <-]; discriminate.
Qed.

Lemma read_digits_shorter s : forall d r,
  read_digits s = (d, r) ->
  (length r <= length s)%nat /\ (d <> Nil -> (length r < length s)%nat).
Proof.
  induction s as [| c s' IH]; intros d r H; cbn [read_digits] in H.
  - injection H as <- <-. split; [lia | congruence].
  - destruct (digit_of c) as [D |].
    + destruct (read_digits s') as [d0 rest].
      injection H as <- <-.
      destruct (IH d0 rest eq_refl) as [Hle _]. cbn [length]. lia.
    + injection H as <- <-. split; [lia | congruence].
Qed.

Lemma valid_int_nonnil d : valid_int d = true -> d <> Nil.
Proof. destruct d; [discriminate | congruence ..]. Qed.

Lemma read_fraction_shorter s f r :
  read_fraction s = Some (f, r) -> (length r <= length s)%nat.
Proof.
  unfold read_fraction. destruct s as [| c s']; [now intros [= <- <-] |].
  destruct (c =? DOT).
  - destruct (read_digits s') as [f0 rest] eqn:E.
    destruct (is_nil f0); [discriminate |]. intros [= <- <-].
    apply read_digits_shorter in E as [Hle _]. cbn [length]. lia.
  - now intros [= <- <-].
Qed.

Lemma read_exponent_shorter s x r :
  read_exponent s = Some (x, r) -> (length r <= length s)%nat.
Proof.
  unfold read_exponent. destruct s as [| c s']; [now intros [= <- <-] |].
  destruct ((c =? 101) || (c =? 69)); [| now intros [= <- <-]].
  assert (Hsign : forall neg r1,
    match s' with
    | sg :: r' =>
        if sg =? MINUS then (true, r')
        else if sg =? PLUS then (false, r') else (false, s')
    | [] => (false, s')
    end = (neg, r1) -> (length r1 <= length s')%nat).
  { intros neg r1. destruct s' as [| sg r']; [now intros [= <- <-] |].
    destruct (sg =? MINUS); [intros [= <- <-]; cbn [length]; lia |].
    destruct (sg =? PLUS); intros [= <- <-]; cbn [length]; lia. }
  destruct (match s' with [] => _ | _ => _ end) as [neg r1].
  specialize (Hsign neg r1 eq_refl).
  destruct (read_digits r1) as [e rest] eqn:E.
  destruct (is_nil e); [discriminate |]. intros [= <- <-].
  apply read_digits_shorter in E as [Hle _]. cbn [length]. lia.
Qed.

Lemma parse_number_shorter s v r :
  parse_number s = Some (v, r) -> (length r < length s)%nat.
Proof.
  unfold parse_number.
  assert (Hsign : forall neg s1,
    match s with
    | c :: r0 => if c =? MINUS then (true, r0) else (false, s)
    | [] => (false, s)
    end = (neg, s1) -> (length s1 <= length s)%nat).
  { intros neg s1. destruct s as [| c r0]; [now intros [= <- <-] |].
    destruct (c =? MINUS); intros [= <- <-]; cbn [length]; lia. }
  destruct (match s with [] => _ | _ => _ end) as [neg s1].
  specialize (Hsign neg s1 eq_refl).
  destruct (read_digits s1) as [i s2] eqn:Ei.
  destruct (valid_int i) eqn:Hv; [| discriminate].
  apply valid_int_nonnil in Hv.
  apply read_digits_shorter in Ei as [_ Hlt]. specialize (Hlt Hv).
  destruct (read_fraction s2) as [[f s3] |] eqn:Ef; [| discriminate].
  apply read_fraction_shorter in Ef.
  destruct (read_exponent s3) as [[x s4] |] eqn:Ex; [| discriminate].
  apply read_exponent_shorter in Ex.
  intros [= <- <-]. lia.
Qed.

Lemma strip_prefix_length p : forall s r,
  strip_prefix p s = Some r -> length s = (length p + length r)%nat.
Proof.
  induction p as [| a p IH]; intros s r H; cbn [strip_prefix] in H.
  - now injection H as <-.
  - destruct s as [| c s']; [discriminate |].
    destruct (c =? a); [| discriminate].
    apply IH in H. cbn [length]. lia.
Qed.

Lemma parse_scalar_shorter s v r :
  parse_scalar s = Some (v, r) -> (length r < length s)%nat.
Proof.
  unfold parse_scalar. destruct s as [| c s']; [discriminate |].
  destruct (c =? DQUOTE).
  { destruct (parse_chars s') as [[str rest] |] eqn:E; [| discriminate].
    intros [= <- <-]. apply parse_chars_shorter in E. cbn [length]. lia. }
  destruct (c =? 110).
  { destruct (strip_prefix _ _) as [rest |] eqn:E; [| discriminate].
    intros [= <- <-]. apply strip_prefix_length in E.
    rewrite E. cbn [length js]. lia. }
  destruct (c =? 116).
  { destruct (strip_prefix _ _) as [rest |] eqn:E; [| discriminate].
    intros [= <- <-]. apply strip_prefix_length in E.
    rewrite E. cbn [length js]. lia. }
  destruct (c =? 102).
  { destruct (strip_prefix _ _) as [rest |] eqn:E; [| discriminate].
    intros [= <- <-]. apply strip_prefix_length in E.
    rewrite E. cbn [length js]. lia. }
  apply parse_number_shorter.
Qed.

Lemma fuel_enough f :
  enough (fun f s (_ : unit) => parse_value f s) f
  /\ enough parse_elements f
  /\ enough parse_members f.
Proof.
  induction f as [| f (IHv & IHe & IHm)].
  { split; [| split]; intros s a v r H; discriminate H. }
  split; [| split]; intros s a v r H.
  - (* parse_value *)
    cbn [parse_value] in H.
    destruct (skip_ws s) as [| c r0] eqn:Hws; [discriminate |].
    apply skip_ws_cons in Hws as Hlen.
    destruct (c =? LBRACKET) eqn:Hc1.
    { destruct (starts_with RBRACKET (skip_ws r0)) eqn:Hst.
      - injection H as <- <-.
        destruct (skip_ws r0) as [| c' r1] eqn:Hws'; [discriminate |].
        apply skip_ws_cons in Hws' as Hlen'. cbn [tl].
        split; [lia |]. intros [| f'] Hf'; [lia |].
        cbn [parse_value]. rewrite Hws, Hc1, Hws', Hst. reflexivity.
      - apply IHe in H as [Hlt Hall]. split; [lia |].
        intros [| f'] Hf'; [lia |].
        cbn [parse_value]. rewrite Hws, Hc1, Hst. apply Hall. lia. }
    destruct (c =? LBRACE) eqn:Hc2.
    { destruct (starts_with RBRACE (skip_ws r0)) eqn:Hst.
      - injection H as <- <-.
        destruct (skip_ws r0) as [| c' r1] eqn:Hws'; [discriminate |].
        apply skip_ws_cons in Hws' as Hlen'. cbn [tl].
        split; [lia |]. intros [| f'] Hf'; [lia |].
        cbn [parse_value]. rewrite Hws, Hc1, Hc2, Hws', Hst. reflexivity.
      - apply IHm in H as [Hlt Hall]. split; [lia |].
        intros [| f'] Hf'; [lia |].
        cbn [parse_value]. rewrite Hws, Hc1, Hc2, Hst. apply Hall. lia. }
    apply parse_scalar_shorter in H as Hlt. cbn [length] in Hlt.
    split; [lia |]. intros [| f'] Hf'; [lia |].
    cbn [parse_value]. now rewrite Hws, Hc1, Hc2.
  - (* parse_elements *)
    cbn [parse_elements] in H.
    destruct (parse_value f s) as [[v1 r1] |] eqn:Hv; [| discriminate].
    apply (IHv s tt) in Hv as [Hlt1 Hall1].
    destruct (skip_ws r1) as [| c r'] eqn:Hws; [discriminate |].
    apply skip_ws_cons in Hws as Hlen.
    destruct (c =? COMMA) eqn:Hc1.
    { apply IHe in H as [Hlt Hall]. split; [lia |].
      intros [| f'] Hf'; [lia |].
      cbn [parse_elements]. rewrite Hall1 by lia.
      rewrite Hws, Hc1. apply Hall. lia. }
    destruct (c =? RBRACKET) eqn:Hc2; [| discriminate].
    injection H as <- <-. split; [lia |].
    intros [| f'] Hf'; [lia |].
    cbn [parse_elements]. rewrite Hall1 by lia.
    now rewrite Hws, Hc1, Hc2.
  - (* parse_members *)
    cbn [parse_members] in H.
    destruct (skip_ws s) as [| c r0] eqn:Hws; [discriminate |].
    apply skip_ws_cons in Hws as Hlen.
    destruct (c =? DQUOTE) eqn:Hc; [| discriminate].
    destruct (parse_chars r0) as [[k r1] |] eqn:Hk; [| discriminate].
    apply parse_chars_shorter in Hk as Hlenk.
    destruct (skip_ws r1) as [| c1 r2] eqn:Hws1; [discriminate |].
    apply skip_ws_cons in Hws1 as Hlen1.
    destruct (c1 =? COLON) eqn:Hc1; [| discriminate].
    destruct (parse_value f r2) as [[v1 r3] |] eqn:Hv; [| discriminate].
    apply (IHv r2 tt) in Hv as [Hlt3 Hall3].
    destruct (skip_ws r3) as [| c3 r4] eqn:Hws3; [discriminate |].
    apply skip_ws_cons in Hws3 as Hlen3.
    destruct (c3 =? COMMA) eqn:Hc3.
    { apply IHm in H as [Hlt Hall]. split; [lia |].
      intros [| f'] Hf'; [lia |].
      cbn [parse_members]. rewrite Hws, Hc, Hk, Hws1, Hc1.
      rewrite Hall3 by lia. rewrite Hws3, Hc3. apply Hall. lia. }
    destruct (c3 =? RBRACE) eqn:Hc4; [| discriminate].
    injection H as <- <-. split; [lia |].
    intros [| f'] Hf'; [lia |].
    cbn [parse_members]. rewrite Hws, Hc, Hk, Hws1, Hc1.
    rewrite Hall3 by lia. now rewrite Hws3, Hc3, Hc4.
Qed.

(** A text that the descent reads to its end with some fuel is accepted
    by [parse]. *)
Lemma parse_complete f text v rest :
  parse_value f text = Some (v, rest) ->
  skip_ws rest = [] ->
  parse text = Some v.
Proof.
  intros H Hrest.
  destruct (fuel_enough f) as (Hv & _ & _).
  destruct (Hv text tt v rest H) as [_ Hall].
  unfold parse. rewrite Hall by lia. now rewrite Hrest.
Qed.

End FuelFacts.

(** * Facts about the storage *)

Module StorageFacts.
Import Storage.

Lemma size_insert key value m :
  size (<[key := value]> m) = weight key value + size (delete key m).
Proof.
  rewrite <- insert_delete_eq. unfold size.
  rewrite (map_fold_insert_L (fun k v acc => weight k v + acc) 0 key value
             (delete key m)); [reflexivity | intros; lia |].
  apply lookup_delete_eq.
Qed.

(** Whether a write fits does not depend on what the key holds. *)
Lemma fits_insert key v w s :
  fits key v {| items := <[key := w]> (items s); quota := quota s |}
  = fits key v s.
Proof. unfold fits. cbn [items quota]. now rewrite insert_insert_eq. Qed.

(** Where a text fits, a shorter one does. *)
Lemma fits_shorter key v w s :
  (length v <= length w)%nat -> fits key w s = true -> fits key v s = true.
Proof.
  unfold fits. rewrite !size_insert, !N.leb_le. unfold weight. lia.
Qed.

Lemma setItem_cases key value s :
  setItem key value s
  = if fits key value s
    then Some {| items := <[key := value]> (items s); quota := quota s |}
    else None.
Proof. reflexivity. Qed.

Lemma eq_parts (a b : t) : items a = items b -> quota a = quota b -> a = b.
Proof. destruct a, b. cbn. now intros -> ->. Qed.

End StorageFacts.

(** * Facts about the component *)

Lemma state_eq a b :
  tasks a = tasks b -> newTask a = newTask b -> nextId a = nextId b ->
  localStorage a = localStorage b -> a = b.
Proof. destruct a, b. cbn. now intros -> -> -> ->. Qed.

(** ** What a call does, by the fate of its write *)

Lemma addTask_call st :
  Handler.addTask st
  = let updatedTasks := tasks st ++ [mkTask (nextId st) (newTask st) []] in
    let text := JSON.stringify updatedTasks in
    if Storage.fits (js "tasks") text (localStorage st)
    then {| after :=
              {| tasks := updatedTasks; newTask := [];
                 nextId := js_add (nextId st) 1;
                 localStorage :=
                   {| Storage.items :=
                        <[js "tasks" := text]>
                          (Storage.items (localStorage st));
                      Storage.quota := Storage.quota (localStorage st) |} |};
            thrown := None |}
    else {| after :=
              {| tasks := updatedTasks; newTask := [];
                 nextId := js_add (nextId st) 1;
                 localStorage := localStorage st |};
            thrown := Some QuotaExceededError |}.
Proof.
  unfold Handler.addTask, localStorage_setItem.
  cbn [localStorage setNextId setNewTask setTasks tasks newTask nextId].
  rewrite StorageFacts.setItem_cases. cbv zeta.
  now destruct (Storage.fits _ _ _).
Qed.

Lemma handleDelete_call id0 st :
  Handler.handleDelete id0 st
  = let newTasks :=
      List.filter (fun task => negb (id task =? id0)%Z) (tasks st) in
    let text := JSON.stringify newTasks in
    if Storage.fits (js "tasks") text (localStorage st)
    then {| after :=
              {| tasks := newTasks; newTask := newTask st;
                 nextId := nextId st;
                 localStorage :=
                   {| Storage.items :=
                        <[js "tasks" := text]>
                          (Storage.items (localStorage st));
                      Storage.quota := Storage.quota (localStorage st) |} |};
            thrown := None |}
    else {| after :=
              {| tasks := newTasks; newTask := newTask st;
                 nextId := nextId st; localStorage := localStorage st |};
            thrown := Some QuotaExceededError |}.
Proof.
  unfold Handler.handleDelete, localStorage_setItem.
  cbn [localStorage setNextId setNewTask setTasks tasks newTask nextId].
  rewrite StorageFacts.setItem_cases. cbv zeta.
  now destruct (Storage.fits _ _ _).
Qed.

Section Projections.
Variable st : state.

Lemma tasks_addTask :
  tasks (addTask st) = tasks st ++ [mkTask (nextId st) (newTask st) []].
Proof.
  unfold addTask. rewrite addTask_call. cbv zeta.
  now destruct (Storage.fits _ _ _).
Qed.

Lemma nextId_addTask : nextId (addTask st) = js_add (nextId st) 1.
Proof.
  unfold addTask. rewrite addTask_call. cbv zeta.
  now destruct (Storage.fits _ _ _).
Qed.

Lemma newTask_addTask : newTask (addTask st) = [].
Proof.
  unfold addTask. rewrite addTask_call. cbv zeta.
  now destruct (Storage.fits _ _ _).
Qed.

Lemma tasks_handleDelete id0 :
  tasks (handleDelete id0 st)
  = List.filter (fun task => negb (id task =? id0)%Z) (tasks st).
Proof.
  unfold handleDelete. rewrite handleDelete_call. cbv zeta.
  now destruct (Storage.fits _ _ _).
Qed.

Lemma nextId_handleDelete id0 : nextId (handleDelete id0 st) = nextId st.
Proof.
  unfold handleDelete. rewrite handleDelete_call. cbv zeta.
  now destruct (Storage.fits _ _ _).
Qed.

Lemma newTask_handleDelete id0 : newTask (handleDelete id0 st) = newTask st.
Proof.
  unfold handleDelete. rewrite handleDelete_call. cbv zeta.
  now destruct (Storage.fits _ _ _).
Qed.

(** The storage after a call: the text is in the slot if it fits, and
    nothing has moved if it does not. *)
Lemma localStorage_addTask :
  localStorage (addTask st)
  = if Storage.fits (js "tasks") (JSON.stringify (tasks (addTask st)))
         (localStorage st)
    then {| Storage.items :=
              <[js "tasks" := JSON.stringify (tasks (addTask st))]>
                (Storage.items (localStorage st));
            Storage.quota := Storage.quota (localStorage st) |}
    else localStorage st.
Proof.
  rewrite tasks_addTask. unfold addTask. rewrite addTask_call. cbv zeta.
  now destruct (Storage.fits _ _ _).
Qed.

Lemma localStorage_handleDelete id0 :
  localStorage (handleDelete id0 st)
  = if Storage.fits (js "tasks") (JSON.stringify (tasks (handleDelete id0 st)))
         (localStorage st)
    then {| Storage.items :=
              <[js "tasks" := JSON.stringify (tasks (handleDelete id0 st))]>
                (Storage.items (localStorage st));
            Storage.quota := Storage.quota (localStorage st) |}
    else localStorage st.
Proof.
  rewrite tasks_handleDelete. unfold handleDelete.
  rewrite handleDelete_call. cbv zeta.
  now destruct (Storage.fits _ _ _).
Qed.

Lemma thrown_addTask :
  thrown (Handler.addTask st)
  = if Storage.fits (js "tasks") (JSON.stringify (tasks (addTask st)))
         (localStorage st)
    then None else Some QuotaExceededError.
Proof.
  rewrite tasks_addTask, addTask_call. cbv zeta.
  now destruct (Storage.fits _ _ _).
Qed.

Lemma thrown_handleDelete id0 :
  thrown (Handler.handleDelete id0 st)
  = if Storage.fits (js "tasks") (JSON.stringify (tasks (handleDelete id0 st)))
         (localStorage st)
    then None else Some QuotaExceededError.
Proof.
  rewrite tasks_handleDelete, handleDelete_call. cbv zeta.
  now destruct (Storage.fits _ _ _).
Qed.

End Projections.

(** The storage after an attempt to write [text] in the slot. *)
Lemma written_slot text (s : Storage.t) :
  Storage.getItem (js "tasks")
    {| Storage.items := <[js "tasks" := text]> (Storage.items s);
       Storage.quota := Storage.quota s |} = Some text.
Proof. unfold Storage.getItem. cbn [Storage.items]. apply lookup_insert_eq. Qed.

Lemma written_other text (s : Storage.t) key :
  key <> js "tasks" ->
  Storage.getItem key
    {| Storage.items := <[js "tasks" := text]> (Storage.items s);
       Storage.quota := Storage.quota s |} = Storage.getItem key s.
Proof.
  intros Hkey. unfold Storage.getItem. cbn [Storage.items].
  now apply lookup_insert_ne.
Qed.

Lemma persisted_addTask st :
  Storage.fits (js "tasks") (JSON.stringify (tasks (addTask st)))
    (localStorage st) = true ->
  persisted (addTask st).
Proof.
  intros Hfit. unfold persisted.
  rewrite (localStorage_addTask st), Hfit. apply written_slot.
Qed.

Lemma persisted_handleDelete st id0 :
  Storage.fits (js "tasks") (JSON.stringify (tasks (handleDelete id0 st)))
    (localStorage st) = true ->
  persisted (handleDelete id0 st).
Proof.
  intros Hfit. unfold persisted.
  rewrite (localStorage_handleDelete st), Hfit. apply written_slot.
Qed.

(** ** The counter computed at hydration *)

Lemma reduce_max_lower ts : forall a,
  (a <= reduce (fun max task => Math.max max (id task)) ts a)%Z.
Proof.
  unfold reduce, Math.max.
  induction ts as [| t ts IH]; intros a; cbn [fold_left]; [lia |].
  specialize (IH (Z.max a (id t))). lia.
Qed.

Lemma reduce_max_upper ts : forall a t,
  In t ts -> (id t <= reduce (fun max task => Math.max max (id task)) ts a)%Z.
Proof.
  induction ts as [| t' ts IH]; intros a t Hin; [destruct Hin |].
  destruct Hin as [-> | Hin].
  - pose proof (reduce_max_lower ts (Z.max a (id t))) as H.
    unfold reduce, Math.max in *. cbn [fold_left]. lia.
  - apply (IH (Z.max a (id t')) t Hin).
Qed.

Lemma reduce_max_attained ts : forall a,
  reduce (fun max task => Math.max max (id task)) ts a = a
  \/ exists t, In t ts
       /\ reduce (fun max task => Math.max max (id task)) ts a = id t.
Proof.
  induction ts as [| t ts IH]; intros a; [now left |].
  unfold reduce, Math.max in *. cbn [fold_left].
  destruct (IH (Z.max a (id t))) as [E | (t' & Hin & E)].
  - rewrite E. destruct (Z.max_spec a (id t)) as [[_ ->] | [_ ->]].
    + right. exists t. split; [now left | reflexivity].
    + now left.
  - right. exists t'. split; [now right | exact E].
Qed.

Lemma maxId_upper ts t : In t ts -> (id t <= maxId ts)%Z.
Proof. apply reduce_max_upper. Qed.

Lemma maxId_nonneg ts : (0 <= maxId ts)%Z.
Proof. apply reduce_max_lower. Qed.

Lemma maxId_attained ts :
  maxId ts = 0%Z \/ exists t, In t ts /\ maxId ts = id t.
Proof. apply reduce_max_attained. Qed.

Lemma maxId_in_range ts :
  (forall t, In t ts -> in_range (id t) = true) ->
  (0 <= maxId ts <= MAX_SAFE_INTEGER + 1)%Z.
Proof.
  intros Hr. split; [apply maxId_nonneg |].
  destruct (maxId_attained ts) as [-> | (t & Hin & ->)]; [easy |].
  apply NumberFacts.in_range_spec, Hr, Hin.
Qed.

Lemma maxId_below ts n :
  (forall t, In t ts -> (id t < n)%Z) -> (1 <= n)%Z -> (maxId ts + 1 <= n)%Z.
Proof.
  intros Hlt Hn. destruct (maxId_attained ts) as [-> | (t & Hin & ->)].
  - lia.
  - specialize (Hlt t Hin). lia.
Qed.

(** ** Hydration, case by case *)

Lemma initialize_malformed st text :
  Storage.getItem (js "tasks") (localStorage st) = Some text ->
  JSON.parse text = None ->
  initialize st = Throw SyntaxError st.
Proof.
  intros Hget Hparse. unfold initialize.
  rewrite Hget. cbn [ToString]. now rewrite Hparse.
Qed.

Lemma initialize_falsy st text v :
  ToString (Storage.getItem (js "tasks") (localStorage st)) = text ->
  JSON.parse text = Some v ->
  truthy v = false ->
  initialize st = Done (setNextId 1 (setTasks [] st)).
Proof.
  intros Hget Hparse Hv. unfold initialize.
  rewrite Hget, Hparse. unfold or_else. rewrite Hv. reflexivity.
Qed.

Lemma initialize_absent st :
  Storage.getItem (js "tasks") (localStorage st) = None ->
  initialize st = Done (setNextId 1 (setTasks [] st)).
Proof.
  intros Hget. apply (initialize_falsy st (js "null") Null).
  - now rewrite Hget.
  - reflexivity.
  - reflexivity.
Qed.

Lemma initialize_stringify st ts :
  (forall t, In t ts -> in_range (id t) = true) ->
  Storage.getItem (js "tasks") (localStorage st) = Some (JSON.stringify ts) ->
  initialize st = Done (setNextId (js_add (maxId ts) 1) (setTasks ts st)).
Proof.
  intros Hr Hget. unfold initialize. rewrite Hget. cbn [ToString].
  rewrite JSONFacts.parse_stringify.
  cbn [or_else truthy as_tasks].
  now rewrite (TypedFacts.as_task_list_task_json ts Hr).
Qed.

(** What a completed hydration has read: a list of tasks with ids in
    range, from which it has computed the counter. *)
Lemma initialize_done st st' :
  initialize st = Done st' ->
  exists ts,
    st' = setNextId (js_add (maxId ts) 1) (setTasks ts st)
    /\ forall t, In t ts -> in_range (id t) = true.
Proof.
  unfold initialize.
  destruct (JSON.parse _) as [parsed |]; [| discriminate].
  destruct (as_tasks _) as [savedTasks |] eqn:Has;
    [| destruct (is_array _); discriminate].
  intros [= <-]. exists savedTasks. split; [reflexivity |].
  unfold as_tasks in Has. destruct (or_else _ _); try discriminate.
  now apply (TypedFacts.as_task_list_in_range elems).
Qed.

(** The counter after hydration: never below an id, and above all of
    them unless one is 2^53. *)
Lemma hydrated_counter ts :
  (forall t, In t ts -> in_range (id t) = true) ->
  js_add (maxId ts) 1 = Z.min (maxId ts + 1) (MAX_SAFE_INTEGER + 1).
Proof.
  intros Hr. apply NumberFacts.js_add_min.
  pose proof (maxId_in_range ts Hr). unfold MAX_SAFE_INTEGER in *. lia.
Qed.

(** ** Deleting by id *)

Section Delete.
Variable id0 : Z.

Abbreviation keep := (fun task : Task => negb (id task =? id0)%Z).

Lemma keep_true t : keep t = true <-> id t <> id0.
Proof. rewrite negb_true_iff. apply Z.eqb_neq. Qed.

Lemma filter_keep_all l :
  (forall t, In t l -> id t <> id0) -> List.filter keep l = l.
Proof.
  induction l as [| t l IH]; intros Hall; [reflexivity |].
  cbn [List.filter].
  assert (Ht : keep t = true) by (apply keep_true, Hall; now left).
  rewrite Ht, IH; [reflexivity |].
  intros t' Hin. apply Hall. now right.
Qed.

Lemma filter_keep_sublist l : sublist (List.filter keep l) l.
Proof.
  induction l as [| t l IH]; [constructor |].
  cbn [List.filter]. destruct (keep t); now constructor.
Qed.

(** With pairwise distinct ids, the matching task splits the list and
    the filter drops exactly it. *)
Lemma filter_keep_split l :
  List.NoDup (map id l) ->
  (exists t, In t l /\ id t = id0) ->
  exists l1 t l2,
    l = l1 ++ t :: l2 /\ id t = id0 /\ List.filter keep l = l1 ++ l2.
Proof.
  induction l as [| t' l IH]; intros Hnd (t & Hin & Hid);
    [destruct Hin |].
  cbn [map] in Hnd. apply List.NoDup_cons_iff in Hnd as [Hfresh Hnd].
  cbn [List.filter].
  destruct (keep t') eqn:Hk.
  - apply keep_true in Hk.
    destruct Hin as [-> | Hin]; [contradiction |].
    destruct (IH Hnd) as (l1 & t1 & l2 & -> & Hid1 & Hf).
    { now exists t. }
    exists (t' :: l1), t1, l2. rewrite Hf. now repeat split.
  - assert (Hid' : id t' = id0).
    { rewrite negb_false_iff in Hk. now apply Z.eqb_eq. }
    exists [], t', l. repeat split; [exact Hid' |].
    apply filter_keep_all. intros t1 Hin1 Heq. apply Hfresh.
    rewrite Hid', <- Heq. now apply in_map.
Qed.
End Delete.

Lemma filter_twice {A : Type} (p q : A -> bool) l :
  List.filter p (List.filter q l) = List.filter q (List.filter p l).
Proof.
  induction l as [| a l IH]; [reflexivity |]. cbn [List.filter].
  destruct (p a) eqn:Hp, (q a) eqn:Hq; cbn [List.filter];
    rewrite ?Hp, ?Hq, IH; reflexivity.
Qed.

Lemma filter_again {A : Type} (p : A -> bool) l :
  List.filter p (List.filter p l) = List.filter p l.
Proof.
  induction l as [| a l IH]; [reflexivity |]. cbn [List.filter].
  destruct (p a) eqn:Hp; cbn [List.filter]; rewrite ?Hp, IH; reflexivity.
Qed.

(** The text of a list is at least as long as the text of a part of it. *)
Lemma length_join_filter (p : Task -> bool) l :
  (length (JSON.join_commas (map JSON.stringify_task (List.filter p l)))
   <= length (JSON.join_commas (map JSON.stringify_task l)))%nat.
Proof.
  induction l as [| a l IH]; [cbn; lia |].
  assert (Hcons : forall x xs,
    (length (JSON.join_commas (map JSON.stringify_task (x :: xs)))
     <= length (JSON.stringify_task x) + 1
        + length (JSON.join_commas (map JSON.stringify_task xs)))%nat
    /\ (length (JSON.stringify_task x)
          + length (JSON.join_commas (map JSON.stringify_task xs))
        <= length (JSON.join_commas (map JSON.stringify_task (x :: xs))))%nat
    /\ (xs <> [] ->
        length (JSON.join_commas (map JSON.stringify_task (x :: xs)))
        = (length (JSON.stringify_task x) + 1
           + length (JSON.join_commas (map JSON.stringify_task xs)))%nat)).
  { intros x [| y ys].
    - cbn [map JSON.join_commas length]. repeat split; [lia | lia |].
      intros H. now contradiction H.
    - cbn [map]. rewrite JSONFacts.join_commas_cons.
      rewrite length_app. cbn [length]. repeat split; lia. }
  cbn [List.filter]. destruct (p a).
  - destruct (List.filter p l) as [| b fl] eqn:Hf.
    + destruct (Hcons a l) as (_ & Hlow & _).
      cbn [map JSON.join_commas] in *. cbn [length] in Hlow. lia.
    + destruct l as [| c l']; [discriminate Hf |].
      destruct (Hcons a (b :: fl)) as (_ & _ & Ha); rewrite Ha by discriminate.
      destruct (Hcons a (c :: l')) as (_ & _ & Hb); rewrite Hb by discriminate.
      lia.
  - destruct (Hcons a l) as (_ & Hlow & _). lia.
Qed.

Lemma length_stringify_filter (p : Task -> bool) l :
  (length (JSON.stringify (List.filter p l)) <= length (JSON.stringify l))%nat.
Proof.
  unfold JSON.stringify. cbn [length]. rewrite !length_app.
  pose proof (length_join_filter p l). cbn [length]. lia.
Qed.

(** ** Adding a sequence of titles *)

Lemma tasks_fold_addTitle titles : forall st,
  tasks (fold_left addTitle titles st)
  = tasks st ++ number_from (nextId st) titles.
Proof.
  induction titles as [| t titles IH]; intros st; cbn [fold_left number_from].
  - now rewrite app_nil_r.
  - rewrite IH. unfold addTitle. rewrite tasks_addTask, nextId_addTask.
    cbn [tasks nextId newTask setNewTask]. now rewrite <- app_assoc.
Qed.

Lemma length_number_from titles : forall n,
  length (number_from n titles) = length titles.
Proof.
  induction titles as [| t titles IH]; intros n; cbn; [reflexivity |].
  now rewrite IH.
Qed.

Lemma title_number_from titles : forall n,
  map title (number_from n titles) = titles.
Proof.
  induction titles as [| t titles IH]; intros n; cbn; [reflexivity |].
  now rewrite IH.
Qed.

Lemma min_step k :
  js_add (Z.min (Z.of_nat k) (MAX_SAFE_INTEGER + 1)) 1
  = Z.min (Z.of_nat (S k)) (MAX_SAFE_INTEGER + 1).
Proof.
  rewrite NumberFacts.js_add_min; unfold MAX_SAFE_INTEGER; lia.
Qed.

(** The ids handed out from the counter [k]: they count up to 2^53 and
    stay there. *)
Lemma id_number_from titles : forall k,
  map id (number_from (Z.min (Z.of_nat k) (MAX_SAFE_INTEGER + 1)) titles)
  = map (fun j => Z.min (Z.of_nat j) (MAX_SAFE_INTEGER + 1))
        (seq k (length titles)).
Proof.
  induction titles as [| t titles IH]; intros k; [reflexivity |].
  cbn [number_from map length seq id]. f_equal.
  rewrite min_step. apply IH.
Qed.

Lemma nextId_fold_addTitle titles : forall st k,
  nextId st = Z.min (Z.of_nat k) (MAX_SAFE_INTEGER + 1) ->
  nextId (fold_left addTitle titles st)
  = Z.min (Z.of_nat (k + length titles)) (MAX_SAFE_INTEGER + 1).
Proof.
  induction titles as [| t titles IH]; intros st k Hk; cbn [fold_left length].
  - now rewrite Nat.add_0_r.
  - rewrite (IH _ (S k)).
    + f_equal. f_equal. lia.
    + unfold addTitle. rewrite nextId_addTask.
      cbn [nextId setNewTask]. rewrite Hk. apply min_step.
Qed.

Lemma seq_strictly_increasing len : forall k,
  StronglySorted Z.lt (map Z.of_nat (seq k len)).
Proof.
  induction len as [| len IH]; intros k; cbn [seq map]; constructor.
  - apply IH.
  - apply List.Forall_forall. intros z Hz.
    apply in_map_iff in Hz as (m & <- & Hm).
    apply in_seq in Hm. lia.
Qed.

Lemma map_min_seq len : forall k,
  (Z.of_nat (k + len) <= MAX_SAFE_INTEGER + 2)%Z ->
  map (fun j => Z.min (Z.of_nat j) (MAX_SAFE_INTEGER + 1)) (seq k len)
  = map Z.of_nat (seq k len).
Proof.
  induction len as [| len IH]; intros k Hk; [reflexivity |].
  cbn [seq map]. f_equal; [lia |]. apply IH. lia.
Qed.

(** ** Sequences of actions *)

Lemma run_cons ev evs st : run (ev :: evs) st = run evs (handle st ev).
Proof. reflexivity. Qed.

Lemma adds_cons ev evs :
  adds (ev :: evs) = ((if is_add ev then 1 else 0) + adds evs)%nat.
Proof. unfold adds. cbn [List.filter]. now destruct (is_add ev). Qed.

Lemma nextId_handle st ev :
  nextId (handle st ev)
  = if is_add ev then js_add (nextId st) 1 else nextId st.
Proof.
  destruct ev; cbn [handle is_add nextId setNewTask];
    [reflexivity | apply nextId_addTask | apply nextId_handleDelete].
Qed.

(** While the counter stays within 2^53 it counts the adds exactly. *)
Lemma nextId_run evs : forall st,
  (- (MAX_SAFE_INTEGER + 1) <= nextId st)%Z ->
  (nextId st + Z.of_nat (adds evs) <= MAX_SAFE_INTEGER + 1)%Z ->
  nextId (run evs st) = (nextId st + Z.of_nat (adds evs))%Z.
Proof.
  induction evs as [| ev evs IH]; intros st Hlo Hhi.
  - cbn. lia.
  - rewrite run_cons. rewrite adds_cons in *.
    pose proof (nextId_handle st ev) as Hstep.
    destruct (is_add ev).
    + rewrite NumberFacts.js_add_succ in Hstep by lia.
      rewrite IH; rewrite Hstep; lia.
    + rewrite IH; rewrite Hstep; lia.
Qed.

Lemma below_counter_handle st ev :
  (- (MAX_SAFE_INTEGER + 1) <= nextId st)%Z ->
  (nextId st + (if is_add ev then 1 else 0) <= MAX_SAFE_INTEGER + 1)%Z ->
  below_counter st -> below_counter (handle st ev).
Proof.
  intros Hlo Hhi Hinv t. rewrite nextId_handle.
  destruct ev as [value | | id0]; cbn [handle is_add] in *.
  - apply Hinv.
  - rewrite tasks_addTask, in_app_iff.
    rewrite NumberFacts.js_add_succ by lia.
    intros [Hin | [<- | []]]; [specialize (Hinv t Hin); lia | cbn [id]; lia].
  - rewrite tasks_handleDelete, filter_In. intros [Hin _]. now apply Hinv.
Qed.

Lemma below_counter_run evs : forall st,
  (- (MAX_SAFE_INTEGER + 1) <= nextId st)%Z ->
  (nextId st + Z.of_nat (adds evs) <= MAX_SAFE_INTEGER + 1)%Z ->
  below_counter st -> below_counter (run evs st).
Proof.
  induction evs as [| ev evs IH]; intros st Hlo Hhi Hinv; [exact Hinv |].
  rewrite run_cons. rewrite adds_cons in Hhi.
  pose proof (nextId_handle st ev) as Hstep.
  apply IH.
  - destruct (is_add ev);
      [rewrite NumberFacts.js_add_succ in Hstep by lia |]; lia.
  - destruct (is_add ev);
      [rewrite NumberFacts.js_add_succ in Hstep by lia |]; lia.
  - apply below_counter_handle; [exact Hlo | destruct (is_add ev); lia |].
    exact Hinv.
Qed.

(** Once an id is below the counter and not in the list, no action
    brings it back, even when the counter has stopped at 2^53. *)
Lemma retired_id_step i st ev :
  (- (MAX_SAFE_INTEGER + 1) <= nextId st <= MAX_SAFE_INTEGER + 1)%Z
  /\ (i < nextId st)%Z /\ ~ In i (map id (tasks st)) ->
  (- (MAX_SAFE_INTEGER + 1) <= nextId (handle st ev)
     <= MAX_SAFE_INTEGER + 1)%Z
  /\ (i < nextId (handle st ev))%Z
  /\ ~ In i (map id (tasks (handle st ev))).
Proof.
  intros (Hr & Hlt & Hnot). rewrite nextId_handle.
  destruct ev as [value | | id0]; cbn [handle is_add].
  - now repeat split.
  - rewrite NumberFacts.js_add_min by exact Hr.
    rewrite tasks_addTask. repeat split; try lia.
    rewrite map_app, in_app_iff. cbn [map id In]. intros [H | [H | []]].
    + contradiction.
    + lia.
  - rewrite tasks_handleDelete. repeat split; try lia.
    intros Hin. apply Hnot.
    apply in_map_iff in Hin as (t & <- & Ht).
    apply filter_In in Ht as [Ht _]. now apply in_map.
Qed.

Lemma retired_id_run i evs : forall st,
  (- (MAX_SAFE_INTEGER + 1) <= nextId st <= MAX_SAFE_INTEGER + 1)%Z
  /\ (i < nextId st)%Z /\ ~ In i (map id (tasks st)) ->
  (- (MAX_SAFE_INTEGER + 1) <= nextId (run evs st)
     <= MAX_SAFE_INTEGER + 1)%Z
  /\ (i < nextId (run evs st))%Z
  /\ ~ In i (map id (tasks (run evs st))).
Proof.
  induction evs as [| ev evs IH]; intros st H; [exact H |].
  rewrite run_cons. apply IH. now apply retired_id_step.
Qed.

Lemma handleDelete_removes_id id0 st :
  ~ In id0 (map id (tasks (handleDelete id0 st))).
Proof.
  rewrite tasks_handleDelete. intros Hin.
  apply in_map_iff in Hin as (t & Hid & Ht).
  apply filter_In in Ht as [_ Hk].
  apply keep_true in Hk. contradiction.
Qed.

(** A completed hydration of a list with ids below 2^53 leaves every id
    below the counter, and the counter between 1 and 2^53. *)
Lemma hydrated_below_counter st st' :
  initialize st = Done st' ->
  (forall t, In t (tasks st') -> (id t <= MAX_SAFE_INTEGER)%Z) ->
  below_counter st' /\ (1 <= nextId st' <= MAX_SAFE_INTEGER + 1)%Z.
Proof.
  intros Hinit Hsafe.
  destruct (initialize_done st st' Hinit) as (ts & -> & Hr).
  cbn [tasks nextId setNextId setTasks] in *.
  assert (Hmax : (0 <= maxId ts <= MAX_SAFE_INTEGER)%Z).
  { split; [apply maxId_nonneg |].
    destruct (maxId_attained ts) as [-> | (t & Hin & ->)];
      [unfold MAX_SAFE_INTEGER; lia | now apply Hsafe]. }
  rewrite NumberFacts.js_add_succ by (unfold MAX_SAFE_INTEGER in *; lia).
  split; [| lia].
  intros t Hin. cbn [tasks nextId setNextId setTasks] in *.
  pose proof (maxId_upper ts t Hin). lia.
Qed.

(** ** The model on concrete texts *)

Example stringify_singleton :
  JSON.stringify [mkTask 5 (js "x") []] = singleton_text.
Proof. reflexivity. Qed.

Example initialize_spaced_text :
  initialize (initial (Storage.of_items {[ js "tasks" := spaced_text ]}))
  = Done {| tasks := [mkTask 7 (js "tA") []]; newTask := []; nextId := 8;
            localStorage := Storage.of_items {[ js "tasks" := spaced_text ]} |}.
Proof. vm_compute. reflexivity. Qed.

(** The scenario of the specification: two tasks added, the first deleted. *)
Example scenario_add_add_delete :
  let s1 := addTitle (initial ∅) (js "Buy milk") in
  let s2 := addTitle s1 (js "Walk dog") in
  tasks s1 = [mkTask 1 (js "Buy milk") []]
  /\ tasks s2 = [mkTask 1 (js "Buy milk") []; mkTask 2 (js "Walk dog") []]
  /\ tasks (handleDelete 1 s2) = [mkTask 2 (js "Walk dog") []].
Proof. vm_compute. repeat split. Qed.

(** The empty text is not JSON: a slot that holds it makes hydration throw. *)
Example initialize_empty_text :
  initialize (initial (Storage.of_items {[ js "tasks" := [] ]}))
  = Throw SyntaxError (initial (Storage.of_items {[ js "tasks" := [] ]})).
Proof. vm_compute. reflexivity. Qed.

(** A number that underflows is the double 0, which [|| []] replaces. *)
Example initialize_underflow :
  initialize (initial (Storage.of_items {[ js "tasks" := js "1e-400" ]}))
  = Done (initial (Storage.of_items {[ js "tasks" := js "1e-400" ]})).
Proof. vm_compute. reflexivity. Qed.

(** A stored value that is not an array makes [reduce] throw. *)
Example initialize_not_an_array :
  initialize (initial (Storage.of_items {[ js "tasks" := js "5" ]}))
  = Crashed TypeError (Num 5 0).
Proof. vm_compute. reflexivity. Qed.

(** A literal between two doubles is read as the nearer one. *)
Example initialize_rounds_literal :
  initialize (initial (Storage.of_items {[ js "tasks" :=
    js "[{" ++ dq "id" ++ js ":9007199254740993," ++ dq "title" ++ js ":"
      ++ dq "x" ++ js "," ++ dq "description" ++ js ":" ++ dq EmptyString
      ++ js "}]" ]}))
  = Done {| tasks := [large_task]; newTask := [];
            nextId := MAX_SAFE_INTEGER + 1;
            localStorage := Storage.of_items {[ js "tasks" :=
              js "[{" ++ dq "id" ++ js ":9007199254740993," ++ dq "title"
                ++ js ":" ++ dq "x" ++ js "," ++ dq "description" ++ js ":"
                ++ dq EmptyString ++ js "}]" ]} |}.
Proof. vm_compute. reflexivity. Qed.

(** * The claims *)

(** C1 (as amended).  When the stored text is not valid JSON the
    hydration effect does not absorb the failure: [JSON.parse] throws a
    SyntaxError out of the effect before any setter has run, so the
    effect never completes and the state is the one it started from. *)
Theorem initialize_malformed_throws st text :
  Storage.getItem (js "tasks") (localStorage st) = Some text ->
  JSON.parse text = None ->
  initialize st = Throw SyntaxError st
  /\ (forall st', initialize st <> Done st').
Proof.
  intros Hget Hparse.
  rewrite (initialize_malformed st text Hget Hparse).
  split; [reflexivity | discriminate].
Qed.

Lemma initialize_malformed_throws_witness :
  Storage.getItem (js "tasks") (localStorage (initial corrupted))
    = Some (js "{oops")
  /\ JSON.parse (js "{oops") = None
  /\ initialize (initial corrupted) = Throw SyntaxError (initial corrupted)
  /\ (forall st', initialize (initial corrupted) <> Done st').
Proof.
  split; [vm_compute; reflexivity |].
  split; [vm_compute; reflexivity |].
  apply (initialize_malformed_throws (initial corrupted) (js "{oops"));
    vm_compute; reflexivity.
Defined.

(** C1 as stated fails: with the text [{oops] in the slot the effect
    throws, whereas with an absent slot it completes with the empty list. *)
Lemma malformed_slot_not_absorbed :
  JSON.parse (js "{oops") = None
  /\ initialize (initial corrupted) = Throw SyntaxError (initial corrupted)
  /\ initialize (initial corrupted) <> Done (initial corrupted)
  /\ initialize (initial ∅) = Done (initial ∅).
Proof.
  split; [vm_compute; reflexivity |].
  assert (H : initialize (initial corrupted)
              = Throw SyntaxError (initial corrupted))
    by (vm_compute; reflexivity).
  split; [exact H |].
  split; [rewrite H; discriminate | vm_compute; reflexivity].
Qed.

(** C2 (as amended).  For a list of tasks whose ids are integers of
    magnitude at most 2^53, hydrating from the slot that holds its
    serialisation gives the same list back, in the same order.  The
    counter is one more than the largest of 0 and the ids, added as
    doubles: it is never below an id and lies between 1 and 2^53.  When
    every id is below 2^53 it is above every id and equals
    [max(ids) + 1] as soon as some id is not negative, and 1 otherwise.
    When an id is 2^53 the counter is 2^53 too.  From the stored
    singleton with id 5 the counter is 6 and the next task added gets
    id 6. *)
Theorem persist_then_initialize ts st :
  (forall t, In t ts -> in_range (id t) = true) ->
  Storage.getItem (js "tasks") (localStorage st) = Some (JSON.stringify ts) ->
  let st' := setNextId (js_add (maxId ts) 1) (setTasks ts st) in
  initialize st = Done st'
  /\ tasks st' = ts
  /\ (forall t, In t ts -> (id t <= nextId st')%Z)
  /\ (1 <= nextId st' <= MAX_SAFE_INTEGER + 1)%Z
  /\ ((forall t, In t ts -> (id t <= MAX_SAFE_INTEGER)%Z) ->
      (forall t, In t ts -> (id t < nextId st')%Z)
      /\ (nextId st' = 1%Z \/ exists t, In t ts /\ nextId st' = (id t + 1)%Z)
      /\ ((exists t, In t ts /\ (0 <= id t)%Z) ->
          exists t, In t ts /\ nextId st' = (id t + 1)%Z
                    /\ forall t', In t' ts -> (id t' <= id t)%Z))
  /\ ((exists t, In t ts /\ id t = (MAX_SAFE_INTEGER + 1)%Z) ->
      nextId st' = (MAX_SAFE_INTEGER + 1)%Z)
  /\ (forall x d,
        ts = [mkTask 5 x d] ->
        nextId st' = 6%Z
        /\ tasks (addTask st')
           = [mkTask 5 x d; mkTask 6 (newTask st) []]).
Proof.
  intros Hr Hget. cbv zeta.
  pose proof (maxId_in_range ts Hr) as Hmax.
  pose proof (hydrated_counter ts Hr) as Hc.
  split; [now apply initialize_stringify |].
  split; [reflexivity |].
  cbn [nextId tasks setNextId setTasks]. rewrite Hc.
  split.
  { intros t Hin. pose proof (maxId_upper ts t Hin).
    pose proof (Hr t Hin) as Hrt.
    apply NumberFacts.in_range_spec in Hrt. lia. }
  split; [unfold MAX_SAFE_INTEGER in *; lia |].
  split; [| split].
  - intros Hsafe.
    assert (Hle : (maxId ts <= MAX_SAFE_INTEGER)%Z).
    { destruct (maxId_attained ts) as [-> | (t & Hin & ->)];
        [unfold MAX_SAFE_INTEGER; lia | now apply Hsafe]. }
    rewrite Z.min_l by lia.
    split; [intros t Hin; pose proof (maxId_upper ts t Hin); lia |].
    split.
    + destruct (maxId_attained ts) as [-> | (t & Hin & ->)];
        [now left | right; now exists t].
    + intros (t0 & Hin0 & Hpos).
      destruct (maxId_attained ts) as [E | (t & Hin & E)].
      * exists t0. pose proof (maxId_upper ts t0 Hin0) as Hle0.
        split; [exact Hin0 |]. split; [lia |].
        intros t' Hin'. pose proof (maxId_upper ts t' Hin'). lia.
      * exists t. split; [exact Hin |]. split; [lia |].
        intros t' Hin'. pose proof (maxId_upper ts t' Hin'). lia.
  - intros (t & Hin & Ht). pose proof (maxId_upper ts t Hin). lia.
  - intros x d ->. split; [reflexivity |].
    now rewrite tasks_addTask.
Qed.

Lemma persist_then_initialize_witness :
  (forall t, In t [mkTask 5 (js "x") []] -> in_range (id t) = true)
  /\ Storage.getItem (js "tasks")
       (localStorage (initial (Storage.of_items
          {[ js "tasks" := JSON.stringify [mkTask 5 (js "x") []] ]})))
     = Some (JSON.stringify [mkTask 5 (js "x") []])
  /\ initialize (initial (Storage.of_items
       {[ js "tasks" := JSON.stringify [mkTask 5 (js "x") []] ]}))
     = Done (setNextId 6 (setTasks [mkTask 5 (js "x") []]
         (initial (Storage.of_items
            {[ js "tasks" := JSON.stringify [mkTask 5 (js "x") []] ]})))).
Proof.
  assert (Hr : forall t, In t [mkTask 5 (js "x") []] -> in_range (id t) = true).
  { intros t [<- | []]. reflexivity. }
  assert (Hget : Storage.getItem (js "tasks")
       (localStorage (initial (Storage.of_items
          {[ js "tasks" := JSON.stringify [mkTask 5 (js "x") []] ]})))
     = Some (JSON.stringify [mkTask 5 (js "x") []]))
    by (vm_compute; reflexivity).
  split; [exact Hr |]. split; [exact Hget |].
  exact (proj1 (persist_then_initialize _ _ Hr Hget)).
Defined.

(** C2 as stated fails twice over.  On a stored list whose ids are all
    negative the counter is 1, not [max(ids) + 1]; on a stored list
    with the id 2^53 the counter is 2^53, the id itself. *)
Lemma counter_is_not_max_plus_one :
  initialize (initial negative_storage)
  = Done {| tasks := [negative_task]; newTask := []; nextId := 1;
            localStorage := negative_storage |}
  /\ (1 <> id negative_task + 1)%Z
  /\ initialize (initial large_storage)
     = Done {| tasks := [large_task]; newTask := [];
               nextId := id large_task; localStorage := large_storage |}
  /\ (id large_task <> id large_task + 1)%Z.
Proof.
  split; [vm_compute; reflexivity |].
  split; [vm_compute; discriminate |].
  split; [vm_compute; reflexivity | lia].
Qed.

(** C3 (as amended).  From any collection, counter and pending input,
    adding the title [title0] appends exactly one task [{id: counter,
    title: title0, description: ''}] after the tasks already there,
    which keep their place, and clears the pending input.  The counter
    becomes [counter + 1] as doubles add: one more while the counter is
    below 2^53, the same at 2^53.  Then the new list is written to the
    slot: if the text fits the storage, the slot holds it and the other
    keys are left alone; if it does not, [setItem] throws
    QuotaExceededError out of the handler, nothing is stored, and the
    list, input and counter have changed all the same.  [addTask] itself
    reads the title from the pending input. *)
Theorem addTask_spec (collection : list Task) (counter : Z)
    (input title0 : jsstring) (ls : Storage.t) :
  let st := {| tasks := collection; newTask := input; nextId := counter;
               localStorage := ls |} in
  let st' := addTitle st title0 in
  let text := JSON.stringify (collection ++ [mkTask counter title0 []]) in
  tasks st' = collection ++ [mkTask counter title0 []]
  /\ newTask st' = []
  /\ nextId st' = js_add counter 1
  /\ ((- (MAX_SAFE_INTEGER + 1) <= counter <= MAX_SAFE_INTEGER)%Z ->
      nextId st' = (counter + 1)%Z)
  /\ (counter = (MAX_SAFE_INTEGER + 1)%Z -> nextId st' = counter)
  /\ (Storage.fits (js "tasks") text ls = true ->
      thrown (Handler.addTask (setNewTask title0 st)) = None
      /\ Storage.getItem (js "tasks") (localStorage st') = Some text
      /\ (forall key, key <> js "tasks" ->
            Storage.getItem key (localStorage st') = Storage.getItem key ls))
  /\ (Storage.fits (js "tasks") text ls = false ->
      thrown (Handler.addTask (setNewTask title0 st))
      = Some QuotaExceededError
      /\ localStorage st' = ls)
  /\ addTask st = addTitle st input.
Proof.
  cbv zeta. unfold addTitle.
  set (st := setNewTask title0 _).
  pose proof (tasks_addTask st) as Ht.
  pose proof (nextId_addTask st) as Hn.
  pose proof (localStorage_addTask st) as Hls.
  pose proof (thrown_addTask st) as Hth.
  rewrite Ht in Hls, Hth.
  cbn [st tasks newTask nextId localStorage setNewTask] in Ht, Hn, Hls, Hth.
  split; [exact Ht |]. split; [apply newTask_addTask |].
  split; [exact Hn |].
  split; [intros Hc; rewrite Hn; now apply NumberFacts.js_add_succ |].
  split; [intros ->; rewrite Hn; apply NumberFacts.js_add_top |].
  split; [| split].
  - intros Hfit. rewrite Hfit in Hls, Hth.
    split; [exact Hth |]. rewrite Hls.
    split; [apply written_slot |].
    intros key Hkey. now apply written_other.
  - intros Hfit. rewrite Hfit in Hls, Hth. now split.
  - reflexivity.
Qed.

Lemma addTask_spec_witness :
  (- (MAX_SAFE_INTEGER + 1) <= 1 <= MAX_SAFE_INTEGER)%Z
  /\ Storage.fits (js "tasks")
       (JSON.stringify ([] ++ [mkTask 1 (js "a") []])) ∅ = true
  /\ nextId (addTitle (initial ∅) (js "a")) = 2%Z
  /\ Storage.getItem (js "tasks")
       (localStorage (addTitle (initial ∅) (js "a")))
     = Some (JSON.stringify ([] ++ [mkTask 1 (js "a") []])).
Proof.
  assert (Hc : (- (MAX_SAFE_INTEGER + 1) <= 1 <= MAX_SAFE_INTEGER)%Z)
    by (unfold MAX_SAFE_INTEGER; lia).
  assert (Hfit : Storage.fits (js "tasks")
       (JSON.stringify ([] ++ [mkTask 1 (js "a") []])) ∅ = true)
    by (vm_compute; reflexivity).
  split; [exact Hc |]. split; [exact Hfit |].
  pose proof (addTask_spec [] 1 [] (js "a") ∅)
    as (_ & _ & _ & Hsucc & _ & Hwrite & _).
  split; [exact (Hsucc Hc) |].
  exact (proj1 (proj2 (Hwrite Hfit))).
Defined.

(** C3 as stated fails twice over.  At the counter 2^53, which hydration
    sets from a stored id 2^53, [addTask] leaves the counter where it
    is; and on a storage that refuses the write the slot keeps its old
    text while the list in memory has grown. *)
Lemma addTask_neither_counts_nor_writes :
  nextId (addTitle {| tasks := [large_task]; newTask := [];
                      nextId := MAX_SAFE_INTEGER + 1;
                      localStorage := large_storage |} (js "a"))
  = (MAX_SAFE_INTEGER + 1)%Z
  /\ tasks (addTitle (initial full_storage) (js "a")) = [mkTask 1 (js "a") []]
  /\ Storage.getItem (js "tasks")
       (localStorage (addTitle (initial full_storage) (js "a")))
     = Some old_text
  /\ old_text
     <> JSON.stringify (tasks (addTitle (initial full_storage) (js "a")))
  /\ thrown (Handler.addTask (setNewTask (js "a") (initial full_storage)))
     = Some QuotaExceededError.
Proof.
  split; [vm_compute; reflexivity |].
  split; [vm_compute; reflexivity |].
  split; [vm_compute; reflexivity |].
  split; [vm_compute; discriminate | vm_compute; reflexivity].
Qed.

(** C4 (as amended).  [handleDelete id0] removes every task whose id is
    [id0] and keeps the others in their order.  When the ids of the list
    are pairwise distinct and one of them is [id0], exactly that one task
    goes; when no task has the id, the list is unchanged.  The resulting
    list is then written to the slot: if the text fits the storage the
    slot holds it; if not, [setItem] throws QuotaExceededError, the list
    in memory has changed all the same and the storage has not. *)
Theorem handleDelete_spec st id0 :
  let st' := handleDelete id0 st in
  (List.NoDup (map id (tasks st)) ->
   (exists t, In t (tasks st) /\ id t = id0) ->
   exists l1 t l2,
     tasks st = l1 ++ t :: l2 /\ id t = id0 /\ tasks st' = l1 ++ l2)
  /\ ((forall t, In t (tasks st) -> id t <> id0) -> tasks st' = tasks st)
  /\ (forall t, In t (tasks st') <-> In t (tasks st) /\ id t <> id0)
  /\ sublist (tasks st') (tasks st)
  /\ (Storage.fits (js "tasks") (JSON.stringify (tasks st')) (localStorage st)
      = true ->
      thrown (Handler.handleDelete id0 st) = None
      /\ Storage.getItem (js "tasks") (localStorage st')
         = Some (JSON.stringify (tasks st')))
  /\ (Storage.fits (js "tasks") (JSON.stringify (tasks st')) (localStorage st)
      = false ->
      thrown (Handler.handleDelete id0 st) = Some QuotaExceededError
      /\ localStorage st' = localStorage st).
Proof.
  cbv zeta.
  pose proof (localStorage_handleDelete st id0) as Hls.
  pose proof (thrown_handleDelete st id0) as Hth.
  rewrite tasks_handleDelete in *.
  split; [apply filter_keep_split |].
  split; [apply filter_keep_all |].
  split; [intros t; rewrite filter_In, keep_true; reflexivity |].
  split; [apply filter_keep_sublist |].
  split; intros Hfit; rewrite Hfit in Hls, Hth.
  - split; [exact Hth |]. rewrite Hls. apply written_slot.
  - now split.
Qed.

Lemma handleDelete_spec_witness :
  List.NoDup (map id (tasks pair_state))
  /\ (exists t, In t (tasks pair_state) /\ id t = 1%Z)
  /\ exists l1 t l2,
       tasks pair_state = l1 ++ t :: l2 /\ id t = 1%Z
       /\ tasks (handleDelete 1 pair_state) = l1 ++ l2.
Proof.
  assert (Hnd : List.NoDup (map id (tasks pair_state))).
  { simpl. repeat constructor; simpl; intuition discriminate. }
  assert (Hex : exists t, In t (tasks pair_state) /\ id t = 1%Z).
  { exists (mkTask 1 (js "a") []). simpl. auto. }
  split; [exact Hnd |]. split; [exact Hex |].
  exact (proj1 (handleDelete_spec pair_state 1) Hnd Hex).
Defined.

(** C4 as stated fails twice over.  When two tasks share the id, both
    are removed; and on a storage that refuses the write the resulting
    list is not persisted. *)
Lemma handleDelete_twins_and_full_storage :
  (exists t, In t (tasks twins_state) /\ id t = 1%Z)
  /\ length (tasks twins_state) = 2%nat
  /\ tasks (handleDelete 1 twins_state) = []
  /\ S (length (tasks (handleDelete 1 twins_state)))
     <> length (tasks twins_state)
  /\ tasks (handleDelete 9 (setTasks [mkTask 9 (js "old") []]
                              (initial full_storage))) = []
  /\ Storage.getItem (js "tasks")
       (localStorage (handleDelete 9 (setTasks [mkTask 9 (js "old") []]
                                        (initial full_storage))))
     = Some old_text
  /\ old_text <> JSON.stringify [].
Proof.
  split; [exists (mkTask 1 (js "a") []); simpl; auto |].
  split; [reflexivity |]. split; [vm_compute; reflexivity |].
  split; [vm_compute; discriminate |].
  split; [vm_compute; reflexivity |].
  split; [vm_compute; reflexivity | vm_compute; discriminate].
Qed.

(** C5.  Adding a sequence of titles (distinct or not) to the initial
    state gives as many tasks as titles, carrying the titles in order.
    The ids are the counter values 1, 2, 3, ... as doubles count them,
    which is up to 2^53: for every sequence of fewer than 2^53 titles
    they are exactly 1, 2, ..., n, strictly increasing, and the counter
    ends at n + 1. *)
Theorem addTask_sequence (titles : list jsstring) (ls : Storage.t) :
  let st := fold_left addTitle titles (initial ls) in
  length (tasks st) = length titles
  /\ map title (tasks st) = titles
  /\ map id (tasks st)
     = map (fun k => Z.min (Z.of_nat k) (MAX_SAFE_INTEGER + 1))
           (seq 1 (length titles))
  /\ nextId st
     = Z.min (Z.of_nat (1 + length titles)) (MAX_SAFE_INTEGER + 1)
  /\ ((Z.of_nat (length titles) <= MAX_SAFE_INTEGER)%Z ->
      map id (tasks st) = map Z.of_nat (seq 1 (length titles))
      /\ StronglySorted Z.lt (map id (tasks st))
      /\ nextId st = (1 + Z.of_nat (length titles))%Z).
Proof.
  cbv zeta. rewrite tasks_fold_addTitle.
  cbn [tasks nextId initial app].
  assert (Hid : map id (number_from 1 titles)
                = map (fun k => Z.min (Z.of_nat k) (MAX_SAFE_INTEGER + 1))
                      (seq 1 (length titles)))
    by apply (id_number_from titles 1).
  assert (Hn : nextId (fold_left addTitle titles (initial ls))
               = Z.min (Z.of_nat (1 + length titles)) (MAX_SAFE_INTEGER + 1))
    by (apply nextId_fold_addTitle; reflexivity).
  split; [apply length_number_from |].
  split; [apply title_number_from |].
  split; [exact Hid |]. split; [exact Hn |].
  intros Hlen. rewrite Hid, Hn, map_min_seq by lia.
  split; [reflexivity |].
  split; [apply seq_strictly_increasing | lia].
Qed.

Lemma addTask_sequence_witness :
  (Z.of_nat (length [js "Buy milk"; js "Walk dog"]) <= MAX_SAFE_INTEGER)%Z
  /\ map id (tasks (fold_left addTitle [js "Buy milk"; js "Walk dog"]
                      (initial ∅)))
     = map Z.of_nat (seq 1 (length [js "Buy milk"; js "Walk dog"]))
  /\ StronglySorted Z.lt
       (map id (tasks (fold_left addTitle [js "Buy milk"; js "Walk dog"]
                         (initial ∅))))
  /\ nextId (fold_left addTitle [js "Buy milk"; js "Walk dog"] (initial ∅))
     = (1 + Z.of_nat (length [js "Buy milk"; js "Walk dog"]))%Z.
Proof.
  assert (Hlen : (Z.of_nat (length [js "Buy milk"; js "Walk dog"])
                  <= MAX_SAFE_INTEGER)%Z)
    by (vm_compute; discriminate).
  split; [exact Hlen |].
  exact (proj2 (proj2 (proj2 (proj2
           (addTask_sequence [js "Buy milk"; js "Walk dog"] ∅)))) Hlen).
Defined.

(** C6.  When the slot is absent, or holds the serialisation of the
    empty list, hydration completes with an empty collection and the
    counter 1. *)
Theorem initialize_empty_or_absent st :
  Storage.getItem (js "tasks") (localStorage st) = None
  \/ Storage.getItem (js "tasks") (localStorage st)
     = Some (JSON.stringify []) ->
  exists st', initialize st = Done st' /\ tasks st' = [] /\ nextId st' = 1%Z.
Proof.
  intros [Habs | Hempty].
  - rewrite (initialize_absent st Habs). now eexists.
  - rewrite (initialize_stringify st []); [now eexists | | exact Hempty].
    intros t [].
Qed.

Lemma initialize_empty_or_absent_witness :
  (exists st', initialize (initial ∅) = Done st'
               /\ tasks st' = [] /\ nextId st' = 1%Z)
  /\ (exists st',
        initialize (initial (Storage.of_items {[ js "tasks" := js "[]" ]}))
        = Done st' /\ tasks st' = [] /\ nextId st' = 1%Z).
Proof.
  split.
  - apply (initialize_empty_or_absent (initial ∅)).
    left. vm_compute. reflexivity.
  - apply (initialize_empty_or_absent
             (initial (Storage.of_items {[ js "tasks" := js "[]" ]}))).
    right. vm_compute. reflexivity.
Defined.

(** C7 (as amended).  A mutation re-establishes 'slot = serialisation
    of the list in memory' when its write succeeds: after [addTask] and
    after [handleDelete], if the text of the new list fits the storage,
    the slot holds it, whatever it held before.  If it does not fit,
    [setItem] throws QuotaExceededError out of the handler: the list in
    memory is the new one and the storage is untouched. *)
Theorem mutation_persists st :
  (Storage.fits (js "tasks") (JSON.stringify (tasks (addTask st)))
     (localStorage st) = true ->
   thrown (Handler.addTask st) = None
   /\ Storage.getItem (js "tasks") (localStorage (addTask st))
      = Some (JSON.stringify (tasks (addTask st))))
  /\ (Storage.fits (js "tasks") (JSON.stringify (tasks (addTask st)))
        (localStorage st) = false ->
      thrown (Handler.addTask st) = Some QuotaExceededError
      /\ localStorage (addTask st) = localStorage st
      /\ tasks (addTask st)
         = tasks st ++ [mkTask (nextId st) (newTask st) []])
  /\ (forall id0,
        (Storage.fits (js "tasks")
           (JSON.stringify (tasks (handleDelete id0 st))) (localStorage st)
         = true ->
         thrown (Handler.handleDelete id0 st) = None
         /\ Storage.getItem (js "tasks") (localStorage (handleDelete id0 st))
            = Some (JSON.stringify (tasks (handleDelete id0 st))))
        /\ (Storage.fits (js "tasks")
              (JSON.stringify (tasks (handleDelete id0 st))) (localStorage st)
            = false ->
            thrown (Handler.handleDelete id0 st) = Some QuotaExceededError
            /\ localStorage (handleDelete id0 st) = localStorage st
            /\ tasks (handleDelete id0 st)
               = List.filter (fun task => negb (id task =? id0)%Z)
                   (tasks st))).
Proof.
  split; [| split].
  - intros Hfit. rewrite thrown_addTask, Hfit.
    split; [reflexivity | now apply persisted_addTask].
  - intros Hfit. rewrite thrown_addTask, localStorage_addTask, Hfit.
    repeat split. apply tasks_addTask.
  - intros id0. split.
    + intros Hfit. rewrite thrown_handleDelete, Hfit.
      split; [reflexivity | now apply persisted_handleDelete].
    + intros Hfit.
      rewrite thrown_handleDelete, localStorage_handleDelete, Hfit.
      repeat split. apply tasks_handleDelete.
Qed.

Lemma mutation_persists_witness :
  Storage.fits (js "tasks")
    (JSON.stringify (tasks (addTask (initial ∅)))) (localStorage (initial ∅))
  = true
  /\ thrown (Handler.addTask (initial ∅)) = None
  /\ Storage.getItem (js "tasks") (localStorage (addTask (initial ∅)))
     = Some (JSON.stringify (tasks (addTask (initial ∅)))).
Proof.
  assert (Hfit : Storage.fits (js "tasks")
    (JSON.stringify (tasks (addTask (initial ∅)))) (localStorage (initial ∅))
    = true) by (vm_compute; reflexivity).
  split; [exact Hfit |].
  exact (proj1 (mutation_persists (initial ∅)) Hfit).
Defined.

(** C7 as stated fails on a storage that refuses the write: after
    [addTask] the list in memory holds the new task and the slot still
    holds the old text. *)
Lemma refused_write_leaves_slot_stale :
  tasks (addTask (setNewTask (js "new") (initial full_storage)))
  = [mkTask 1 (js "new") []]
  /\ Storage.getItem (js "tasks")
       (localStorage (addTask (setNewTask (js "new") (initial full_storage))))
     = Some old_text
  /\ old_text <> JSON.stringify [mkTask 1 (js "new") []].
Proof.
  split; [vm_compute; reflexivity |].
  split; [vm_compute; reflexivity | vm_compute; discriminate].
Qed.

(** C8 (as amended).  An empty title is not rejected, and [addTask] has
    no branch on the title: for every title [t] it appends [{id:
    counter, title: t, description: ''}], clears the input and adds 1 to
    the counter as doubles add; it then writes the list, which lands in
    the slot if the text fits the storage and makes [setItem] throw if
    it does not.  With the empty title the task appended has the empty
    string as title, and the counter, while it is below 2^53, grows by
    one. *)
Theorem addTask_empty_title st :
  let st' := addTitle st [] in
  tasks st' = tasks st ++ [mkTask (nextId st) [] []]
  /\ length (tasks st') = S (length (tasks st))
  /\ ((- (MAX_SAFE_INTEGER + 1) <= nextId st <= MAX_SAFE_INTEGER)%Z ->
      nextId st' = (nextId st + 1)%Z)
  /\ (forall t,
        tasks (addTitle st t) = tasks st ++ [mkTask (nextId st) t []]
        /\ nextId (addTitle st t) = js_add (nextId st) 1
        /\ newTask (addTitle st t) = []
        /\ (Storage.fits (js "tasks") (JSON.stringify (tasks (addTitle st t)))
              (localStorage st) = true ->
            thrown (Handler.addTask (setNewTask t st)) = None
            /\ persisted (addTitle st t))
        /\ (Storage.fits (js "tasks") (JSON.stringify (tasks (addTitle st t)))
              (localStorage st) = false ->
            thrown (Handler.addTask (setNewTask t st))
            = Some QuotaExceededError
            /\ localStorage (addTitle st t) = localStorage st)).
Proof.
  cbv zeta. unfold addTitle.
  split; [exact (tasks_addTask (setNewTask [] st)) |].
  split.
  { rewrite tasks_addTask, length_app.
    cbn [tasks setNewTask length]. lia. }
  split.
  { intros Hc. rewrite nextId_addTask. cbn [nextId setNewTask].
    now apply NumberFacts.js_add_succ. }
  intros t.
  split; [exact (tasks_addTask (setNewTask t st)) |].
  split; [exact (nextId_addTask (setNewTask t st)) |].
  split; [exact (newTask_addTask (setNewTask t st)) |].
  pose proof (thrown_addTask (setNewTask t st)) as Hth.
  pose proof (localStorage_addTask (setNewTask t st)) as Hls.
  cbn [localStorage setNewTask] in Hth, Hls.
  split; intros Hfit; rewrite Hfit in Hth, Hls.
  - split; [exact Hth |]. now apply persisted_addTask.
  - now split.
Qed.

Lemma addTask_empty_title_witness :
  (- (MAX_SAFE_INTEGER + 1) <= nextId (initial ∅) <= MAX_SAFE_INTEGER)%Z
  /\ nextId (addTitle (initial ∅) []) = (nextId (initial ∅) + 1)%Z.
Proof.
  assert (Hc : (- (MAX_SAFE_INTEGER + 1) <= nextId (initial ∅)
                <= MAX_SAFE_INTEGER)%Z)
    by (unfold MAX_SAFE_INTEGER; cbn; lia).
  split; [exact Hc |].
  exact (proj1 (proj2 (proj2 (addTask_empty_title (initial ∅)))) Hc).
Defined.

(** C8 as stated fails twice over, with the empty title as with any
    other: at the counter 2^53 the counter is not incremented, and on a
    storage that refuses the write the blank task is not persisted. *)
Lemma empty_title_neither_counts_nor_writes :
  nextId (addTitle {| tasks := [large_task]; newTask := js "typed";
                      nextId := MAX_SAFE_INTEGER + 1;
                      localStorage := large_storage |} [])
  = (MAX_SAFE_INTEGER + 1)%Z
  /\ tasks (addTitle (initial full_storage) []) = [mkTask 1 [] []]
  /\ Storage.getItem (js "tasks")
       (localStorage (addTitle (initial full_storage) []))
     = Some old_text
  /\ old_text <> JSON.stringify (tasks (addTitle (initial full_storage) [])).
Proof.
  split; [vm_compute; reflexivity |].
  split; [vm_compute; reflexivity |].
  split; [vm_compute; reflexivity | vm_compute; discriminate].
Qed.

(** C9 (as amended).  Take a session whose hydration completed on a
    list of task records with ids below 2^53 (or on an absent slot), and
    actions that add so few tasks that the counter stays within 2^53.
    In the state reached the counter is above every id of the list.
    [handleDelete] leaves the counter as it is, so once a task is
    deleted its id stays below the counter and out of the list through
    all later actions, and a task added later gets a different id. *)
Theorem counter_above_ids ls st0 evs :
  initialize (initial ls) = Done st0 ->
  (forall t, In t (tasks st0) -> (id t <= MAX_SAFE_INTEGER)%Z) ->
  (nextId st0 + Z.of_nat (adds evs) <= MAX_SAFE_INTEGER + 1)%Z ->
  let st := run evs st0 in
  (forall t, In t (tasks st) -> (id t < nextId st)%Z)
  /\ (forall id0, nextId (handleDelete id0 st) = nextId st)
  /\ (forall t later,
        In t (tasks st) ->
        let st' := run later (handleDelete (id t) st) in
        (id t < nextId st')%Z
        /\ ~ In (id t) (map id (tasks st'))
        /\ ~ In (id t) (map id (tasks (addTask st')))).
Proof.
  intros Hinit Hsafe Hroom. cbv zeta.
  destruct (hydrated_below_counter _ _ Hinit Hsafe) as [Hinv0 Hc0].
  assert (Hinv : below_counter (run evs st0))
    by (apply below_counter_run; [lia | exact Hroom | exact Hinv0]).
  assert (Hn : nextId (run evs st0)
               = (nextId st0 + Z.of_nat (adds evs))%Z)
    by (apply nextId_run; [lia | exact Hroom]).
  split; [exact Hinv |].
  split; [intros id0; apply nextId_handleDelete |].
  intros t later Hin.
  assert (Hrun :
    (- (MAX_SAFE_INTEGER + 1)
       <= nextId (run later (handleDelete (id t) (run evs st0)))
       <= MAX_SAFE_INTEGER + 1)%Z
    /\ (id t < nextId (run later (handleDelete (id t) (run evs st0))))%Z
    /\ ~ In (id t)
         (map id (tasks (run later (handleDelete (id t) (run evs st0)))))).
  { apply retired_id_run. rewrite nextId_handleDelete.
    split; [lia |]. split; [now apply Hinv |].
    apply handleDelete_removes_id. }
  split; [apply Hrun |]. split; [apply Hrun |].
  apply (retired_id_step (id t) _ ClickAdd Hrun).
Qed.

Lemma counter_above_ids_witness :
  initialize (initial ∅) = Done (initial ∅)
  /\ (forall t, In t (tasks (initial ∅)) -> (id t <= MAX_SAFE_INTEGER)%Z)
  /\ (nextId (initial ∅)
      + Z.of_nat (adds [Change (js "a"); ClickAdd; Change (js "b"); ClickAdd])
      <= MAX_SAFE_INTEGER + 1)%Z
  /\ (forall t,
        In t (tasks (run [Change (js "a"); ClickAdd; Change (js "b"); ClickAdd]
                         (initial ∅))) ->
        (id t < nextId (run [Change (js "a"); ClickAdd; Change (js "b");
                             ClickAdd] (initial ∅)))%Z).
Proof.
  assert (Hinit : initialize (initial ∅) = Done (initial ∅))
    by (vm_compute; reflexivity).
  assert (Hsafe : forall t, In t (tasks (initial ∅)) ->
                            (id t <= MAX_SAFE_INTEGER)%Z)
    by (intros t []).
  assert (Hroom : (nextId (initial ∅)
      + Z.of_nat (adds [Change (js "a"); ClickAdd; Change (js "b"); ClickAdd])
      <= MAX_SAFE_INTEGER + 1)%Z) by (vm_compute; discriminate).
  split; [exact Hinit |]. split; [exact Hsafe |]. split; [exact Hroom |].
  exact (proj1 (counter_above_ids ∅ (initial ∅) _ Hinit Hsafe Hroom)).
Defined.

(** C9 as stated fails when the stored list holds the id 2^53:
    hydration completes with the counter 2^53, which is not above that
    id, and after the task is deleted the next task added gets the id
    2^53 again. *)
Lemma counter_meets_stored_id :
  initialize (initial large_storage)
  = Done {| tasks := [large_task]; newTask := [];
            nextId := id large_task; localStorage := large_storage |}
  /\ ~ (id large_task < id large_task)%Z
  /\ map id (tasks (addTask (handleDelete (id large_task)
          {| tasks := [large_task]; newTask := [];
             nextId := id large_task; localStorage := large_storage |})))
     = [id large_task].
Proof.
  split; [vm_compute; reflexivity |].
  split; [lia | vm_compute; reflexivity].
Qed.

(** C10.  When the slot holds one of the texts [null], [0], [false] or
    the empty string literal, the text parses to a falsy value, which
    [|| []] replaces by the empty array: hydration completes with the
    empty collection and the counter 1, as it does for an absent slot. *)
Theorem initialize_falsy_text st text :
  In text falsy_texts ->
  Storage.getItem (js "tasks") (localStorage st) = Some text ->
  (exists v, JSON.parse text = Some v /\ truthy v = false)
  /\ initialize st = Done (setNextId 1 (setTasks [] st))
  /\ (forall st0,
        Storage.getItem (js "tasks") (localStorage st0) = None ->
        exists a b,
          initialize st = Done a /\ initialize st0 = Done b
          /\ tasks a = [] /\ tasks b = []
          /\ nextId a = 1%Z /\ nextId b = 1%Z).
Proof.
  intros Hin Hget.
  assert (Hv : exists v, JSON.parse text = Some v /\ truthy v = false).
  { cbn [falsy_texts In] in Hin.
    destruct Hin as [<- | [<- | [<- | [<- | []]]]].
    - now exists Null.
    - now exists (Num 0 0).
    - now exists (Bool false).
    - now exists (Str []). }
  split; [exact Hv |].
  destruct Hv as (v & Hparse & Hfalsy).
  assert (Hinit : initialize st = Done (setNextId 1 (setTasks [] st))).
  { apply (initialize_falsy st text v); [now rewrite Hget | assumption ..]. }
  split; [exact Hinit |].
  intros st0 Habs. eexists. eexists.
  split; [exact Hinit |].
  split; [exact (initialize_absent st0 Habs) |].
  now repeat split.
Qed.

Lemma initialize_falsy_text_witness :
  In (js "false") falsy_texts
  /\ initialize (initial (Storage.of_items {[ js "tasks" := js "false" ]}))
     = Done (setNextId 1 (setTasks []
         (initial (Storage.of_items {[ js "tasks" := js "false" ]})))).
Proof.
  assert (Hin : In (js "false") falsy_texts) by (simpl; auto).
  split; [exact Hin |].
  apply (initialize_falsy_text
           (initial (Storage.of_items {[ js "tasks" := js "false" ]}))
           (js "false") Hin).
  vm_compute. reflexivity.
Defined.

(** * Further properties of the component *)

(** ** Ids along a session *)

Lemma NoDup_map_filter {A B : Type} (f : A -> B) (p : A -> bool) l :
  List.NoDup (map f l) -> List.NoDup (map f (List.filter p l)).
Proof.
  induction l as [| a l IH]; cbn [map List.filter]; intros Hnd; [constructor |].
  apply List.NoDup_cons_iff in Hnd as [Ha Hnd].
  destruct (p a); cbn [map]; [| now apply IH].
  constructor; [| now apply IH].
  intros Hin. apply Ha.
  apply in_map_iff in Hin as (x & <- & Hx).
  apply filter_In in Hx as [Hx _]. now apply in_map.
Qed.

Lemma NoDup_snoc {A : Type} (l : list A) x :
  List.NoDup l -> ~ In x l -> List.NoDup (l ++ [x]).
Proof.
  induction l as [| a l IH]; cbn [app]; intros Hnd Hx.
  - constructor; [intros [] | constructor].
  - apply List.NoDup_cons_iff in Hnd as [Ha Hnd].
    constructor.
    + rewrite in_app_iff. intros [H | [<- | []]]; [contradiction |].
      apply Hx. now left.
    + apply IH; [exact Hnd |]. intros H. apply Hx. now right.
Qed.

Lemma sorted_snoc (l : list Z) x :
  StronglySorted Z.lt l -> (forall y, In y l -> (y < x)%Z) ->
  StronglySorted Z.lt (l ++ [x]).
Proof.
  induction l as [| a l IH]; cbn [app]; intros Hs Hx.
  - constructor; constructor.
  - apply StronglySorted_inv in Hs as [Hs Ha]. constructor.
    + apply IH; [exact Hs |]. intros y Hy. apply Hx. now right.
    + apply List.Forall_forall. intros y Hy.
      apply in_app_iff in Hy as [Hy | [<- | []]].
      * rewrite List.Forall_forall in Ha. now apply Ha.
      * apply Hx. now left.
Qed.

Lemma sorted_map_filter {A : Type} (f : A -> Z) (p : A -> bool) l :
  StronglySorted Z.lt (map f l) ->
  StronglySorted Z.lt (map f (List.filter p l)).
Proof.
  induction l as [| a l IH]; cbn [map List.filter]; intros H; [constructor |].
  apply StronglySorted_inv in H as [H Ha].
  destruct (p a); cbn [map]; [| now apply IH].
  constructor; [now apply IH |].
  rewrite List.Forall_forall in Ha. apply List.Forall_forall.
  intros y Hy. apply Ha.
  apply in_map_iff in Hy as (x & <- & Hx).
  apply filter_In in Hx as [Hx _]. now apply in_map.
Qed.

Lemma ids_below_counter st :
  below_counter st -> forall i, In i (map id (tasks st)) -> (i < nextId st)%Z.
Proof.
  intros Hinv i Hin. apply in_map_iff in Hin as (t & <- & Ht). now apply Hinv.
Qed.

(** One step of a session that leaves the counter room to count. *)
Lemma headroom_handle st ev evs :
  (- (MAX_SAFE_INTEGER + 1) <= nextId st)%Z ->
  (nextId st + Z.of_nat (adds (ev :: evs)) <= MAX_SAFE_INTEGER + 1)%Z ->
  (- (MAX_SAFE_INTEGER + 1) <= nextId (handle st ev))%Z
  /\ (nextId (handle st ev) + Z.of_nat (adds evs) <= MAX_SAFE_INTEGER + 1)%Z
  /\ (nextId st + (if is_add ev then 1 else 0) <= MAX_SAFE_INTEGER + 1)%Z
  /\ nextId (handle st ev) = (nextId st + (if is_add ev then 1 else 0))%Z.
Proof.
  intros Hlo Hhi. rewrite adds_cons in Hhi.
  pose proof (nextId_handle st ev) as Hstep.
  destruct (is_add ev);
    [rewrite NumberFacts.js_add_succ in Hstep by lia |]; lia.
Qed.

(** X1.  Ids stay pairwise distinct while the counter counts: from a
    state whose ids are pairwise distinct and below the counter, a
    sequence of actions that keeps the counter within 2^53 leads to a
    state whose ids are pairwise distinct. *)
Theorem ids_stay_distinct st evs :
  below_counter st ->
  (- (MAX_SAFE_INTEGER + 1) <= nextId st)%Z ->
  (nextId st + Z.of_nat (adds evs) <= MAX_SAFE_INTEGER + 1)%Z ->
  List.NoDup (map id (tasks st)) ->
  List.NoDup (map id (tasks (run evs st))).
Proof.
  revert st. induction evs as [| ev evs IH]; intros st Hinv Hlo Hhi Hnd;
    [exact Hnd |].
  rewrite run_cons.
  destruct (headroom_handle st ev evs Hlo Hhi) as (Hlo' & Hhi' & Hone & _).
  apply IH; [now apply below_counter_handle | exact Hlo' | exact Hhi' |].
  pose proof (ids_below_counter st Hinv) as Hlt.
  destruct ev as [value | | id0]; cbn [handle].
  - exact Hnd.
  - rewrite tasks_addTask, map_app. cbn [map id].
    apply NoDup_snoc; [exact Hnd |].
    intros Hin. specialize (Hlt _ Hin). lia.
  - rewrite tasks_handleDelete. now apply NoDup_map_filter.
Qed.

Lemma ids_stay_distinct_witness :
  below_counter (initial ∅)
  /\ List.NoDup (map id (tasks (initial ∅)))
  /\ List.NoDup (map id (tasks
       (run [Change (js "a"); ClickAdd; ClickAdd; ClickDelete 1; ClickAdd]
            (initial ∅)))).
Proof.
  assert (Hinv : below_counter (initial ∅)) by (intros t []).
  assert (Hlo : (- (MAX_SAFE_INTEGER + 1) <= nextId (initial ∅))%Z)
    by (vm_compute; discriminate).
  assert (Hhi : (nextId (initial ∅) + Z.of_nat (adds
       [Change (js "a"); ClickAdd; ClickAdd; ClickDelete 1; ClickAdd])
     <= MAX_SAFE_INTEGER + 1)%Z) by (vm_compute; discriminate).
  assert (Hnd : List.NoDup (map id (tasks (initial ∅)))) by constructor.
  split; [exact Hinv |]. split; [exact Hnd |].
  exact (ids_stay_distinct (initial ∅) _ Hinv Hlo Hhi Hnd).
Defined.

(** X2.  The list stays in the order of the ids while the counter
    counts: from a state whose ids increase strictly along the list and
    are below the counter, a sequence of actions that keeps the counter
    within 2^53 leads to a state whose ids increase strictly along the
    list. *)
Theorem ids_stay_increasing st evs :
  below_counter st ->
  (- (MAX_SAFE_INTEGER + 1) <= nextId st)%Z ->
  (nextId st + Z.of_nat (adds evs) <= MAX_SAFE_INTEGER + 1)%Z ->
  StronglySorted Z.lt (map id (tasks st)) ->
  StronglySorted Z.lt (map id (tasks (run evs st))).
Proof.
  revert st. induction evs as [| ev evs IH]; intros st Hinv Hlo Hhi Hs;
    [exact Hs |].
  rewrite run_cons.
  destruct (headroom_handle st ev evs Hlo Hhi) as (Hlo' & Hhi' & Hone & _).
  apply IH; [now apply below_counter_handle | exact Hlo' | exact Hhi' |].
  pose proof (ids_below_counter st Hinv) as Hlt.
  destruct ev as [value | | id0]; cbn [handle].
  - exact Hs.
  - rewrite tasks_addTask, map_app. cbn [map id].
    now apply sorted_snoc.
  - rewrite tasks_handleDelete. now apply sorted_map_filter.
Qed.

Lemma ids_stay_increasing_witness :
  below_counter (initial ∅)
  /\ StronglySorted Z.lt (map id (tasks (initial ∅)))
  /\ StronglySorted Z.lt (map id (tasks
       (run [ClickAdd; ClickAdd; ClickDelete 1; ClickAdd] (initial ∅)))).
Proof.
  assert (Hinv : below_counter (initial ∅)) by (intros t []).
  assert (Hlo : (- (MAX_SAFE_INTEGER + 1) <= nextId (initial ∅))%Z)
    by (vm_compute; discriminate).
  assert (Hhi : (nextId (initial ∅) + Z.of_nat (adds
       [ClickAdd; ClickAdd; ClickDelete 1; ClickAdd])
     <= MAX_SAFE_INTEGER + 1)%Z) by (vm_compute; discriminate).
  assert (Hs : StronglySorted Z.lt (map id (tasks (initial ∅))))
    by constructor.
  split; [exact Hinv |]. split; [exact Hs |].
  exact (ids_stay_increasing (initial ∅) _ Hinv Hlo Hhi Hs).
Defined.

(** ** The counter *)

Lemma nextId_run_min evs : forall st,
  (- (MAX_SAFE_INTEGER + 1) <= nextId st <= MAX_SAFE_INTEGER + 1)%Z ->
  nextId (run evs st)
  = Z.min (nextId st + Z.of_nat (adds evs)) (MAX_SAFE_INTEGER + 1).
Proof.
  induction evs as [| ev evs IH]; intros st Hr.
  - cbn. lia.
  - rewrite run_cons, adds_cons.
    pose proof (nextId_handle st ev) as Hstep.
    destruct (is_add ev).
    + rewrite NumberFacts.js_add_min in Hstep by exact Hr.
      rewrite IH; rewrite Hstep; lia.
    + rewrite IH; rewrite Hstep; [lia | exact Hr].
Qed.

Lemma length_tasks_run evs : forall st,
  (length (tasks (run evs st)) <= length (tasks st) + adds evs)%nat.
Proof.
  induction evs as [| ev evs IH]; intros st; [cbn; lia |].
  rewrite run_cons, adds_cons.
  specialize (IH (handle st ev)).
  destruct ev as [value | | id0]; cbn [handle is_add] in *.
  - exact IH.
  - rewrite tasks_addTask, length_app in IH. cbn [length] in IH. lia.
  - rewrite tasks_handleDelete in IH.
    pose proof (List.filter_length_le
                  (fun task => negb (id task =? id0)%Z) (tasks st)).
    lia.
Qed.

(** X3.  The counter counts the clicks on [Add], up to 2^53: from a
    counter within 2^53, after a sequence of actions it is the counter
    before plus the number of [Add] clicks in the sequence, or 2^53 if
    that is less; typing and deleting never move it, and it never goes
    down.  The list grows by at most one task per [Add] click. *)
Theorem counter_counts_adds st evs :
  (- (MAX_SAFE_INTEGER + 1) <= nextId st <= MAX_SAFE_INTEGER + 1)%Z ->
  nextId (run evs st)
  = Z.min (nextId st + Z.of_nat (adds evs)) (MAX_SAFE_INTEGER + 1)
  /\ (nextId st <= nextId (run evs st))%Z
  /\ ((nextId st + Z.of_nat (adds evs) <= MAX_SAFE_INTEGER + 1)%Z ->
      nextId (run evs st) = (nextId st + Z.of_nat (adds evs))%Z)
  /\ (length (tasks (run evs st)) <= length (tasks st) + adds evs)%nat.
Proof.
  intros Hr. pose proof (nextId_run_min evs st Hr) as Hn.
  split; [exact Hn |]. split; [lia |]. split; [lia |].
  apply length_tasks_run.
Qed.

Lemma counter_counts_adds_witness :
  (- (MAX_SAFE_INTEGER + 1) <= nextId (initial ∅) <= MAX_SAFE_INTEGER + 1)%Z
  /\ nextId (run [Change (js "a"); ClickAdd; ClickDelete 1; ClickAdd]
                 (initial ∅))
     = Z.min (nextId (initial ∅)
              + Z.of_nat (adds [Change (js "a"); ClickAdd; ClickDelete 1;
                                ClickAdd]))
             (MAX_SAFE_INTEGER + 1).
Proof.
  assert (Hr : (- (MAX_SAFE_INTEGER + 1) <= nextId (initial ∅)
                <= MAX_SAFE_INTEGER + 1)%Z)
    by (split; vm_compute; discriminate).
  split; [exact Hr |].
  exact (proj1 (counter_counts_adds (initial ∅) _ Hr)).
Defined.

(** ** Tasks are added and removed, never edited *)

Lemma tasks_handle_origin st ev t :
  In t (tasks (handle st ev)) ->
  In t (tasks st) \/ (description t = [] /\ id t = nextId st /\ ev = ClickAdd).
Proof.
  destruct ev as [value | | id0]; cbn [handle].
  - now left.
  - rewrite tasks_addTask, in_app_iff. intros [H | [<- | []]];
      [now left | now right].
  - rewrite tasks_handleDelete, filter_In. intros [H _]. now left.
Qed.

(** X4.  No action edits a task: along a sequence of actions that keeps
    the counter within 2^53, every task of the state reached either was
    already there, unchanged, or was built by [addTask] in between, with
    an empty description and an id taken from the counter. *)
Theorem tasks_never_edited st evs t :
  (- (MAX_SAFE_INTEGER + 1) <= nextId st)%Z ->
  (nextId st + Z.of_nat (adds evs) <= MAX_SAFE_INTEGER + 1)%Z ->
  In t (tasks (run evs st)) ->
  In t (tasks st)
  \/ (description t = [] /\ (nextId st <= id t < nextId (run evs st))%Z).
Proof.
  revert st. induction evs as [| ev evs IH]; intros st Hlo Hhi Hin;
    [now left |].
  rewrite run_cons in *.
  destruct (headroom_handle st ev evs Hlo Hhi) as (Hlo' & Hhi' & Hone & Hstep).
  pose proof (nextId_run evs (handle st ev) Hlo' Hhi') as Hrun.
  destruct (IH (handle st ev) Hlo' Hhi' Hin) as [Hold | (Hd & Hlow & Hup)].
  - destruct (tasks_handle_origin st ev t Hold) as [H | (Hd & Hid & ->)];
      [now left |].
    right. split; [exact Hd |]. cbn [is_add] in Hstep. lia.
  - right. split; [exact Hd |]. destruct (is_add ev); lia.
Qed.

Lemma tasks_never_edited_witness :
  In (mkTask 2 (js "b") [])
     (tasks (run [Change (js "b"); ClickAdd] (addTitle (initial ∅) (js "a"))))
  /\ (In (mkTask 2 (js "b") []) (tasks (addTitle (initial ∅) (js "a")))
      \/ (description (mkTask 2 (js "b") []) = []
          /\ (nextId (addTitle (initial ∅) (js "a"))
              <= id (mkTask 2 (js "b") [])
              < nextId (run [Change (js "b"); ClickAdd]
                            (addTitle (initial ∅) (js "a"))))%Z)).
Proof.
  assert (Hin : In (mkTask 2 (js "b") [])
     (tasks (run [Change (js "b"); ClickAdd] (addTitle (initial ∅) (js "a")))))
    by (vm_compute; auto).
  assert (Hlo : (- (MAX_SAFE_INTEGER + 1)
                 <= nextId (addTitle (initial ∅) (js "a")))%Z)
    by (vm_compute; discriminate).
  assert (Hhi : (nextId (addTitle (initial ∅) (js "a"))
                 + Z.of_nat (adds [Change (js "b"); ClickAdd])
                 <= MAX_SAFE_INTEGER + 1)%Z)
    by (vm_compute; discriminate).
  split; [exact Hin |].
  exact (tasks_never_edited _ _ _ Hlo Hhi Hin).
Defined.

(** ** Storage *)

Lemma getItem_handle st ev key :
  key <> js "tasks" ->
  Storage.getItem key (localStorage (handle st ev))
  = Storage.getItem key (localStorage st).
Proof.
  intros Hkey.
  destruct ev as [value | | id0]; cbn [handle]; [reflexivity | |].
  - rewrite localStorage_addTask.
    destruct (Storage.fits _ _ _); [now apply written_other | reflexivity].
  - rewrite localStorage_handleDelete.
    destruct (Storage.fits _ _ _); [now apply written_other | reflexivity].
Qed.

(** X5.  The component writes one key only: whatever the actions, every
    other key of [localStorage] holds what it held before. *)
Theorem other_keys_untouched st evs key :
  key <> js "tasks" ->
  Storage.getItem key (localStorage (run evs st))
  = Storage.getItem key (localStorage st).
Proof.
  intros Hkey. revert st.
  induction evs as [| ev evs IH]; intros st; [reflexivity |].
  rewrite run_cons. now rewrite IH, getItem_handle.
Qed.

Lemma other_keys_untouched_witness :
  js "theme" <> js "tasks"
  /\ Storage.getItem (js "theme")
       (localStorage (run [Change (js "a"); ClickAdd; ClickDelete 1]
          (initial (Storage.of_items {[ js "theme" := js "dark" ]}))))
     = Some (js "dark").
Proof.
  assert (Hkey : js "theme" <> js "tasks") by discriminate.
  split; [exact Hkey |].
  rewrite (other_keys_untouched _ _ _ Hkey).
  vm_compute. reflexivity.
Defined.

Lemma handle_ignores_storage a b ev :
  tasks a = tasks b -> newTask a = newTask b -> nextId a = nextId b ->
  tasks (handle a ev) = tasks (handle b ev)
  /\ newTask (handle a ev) = newTask (handle b ev)
  /\ nextId (handle a ev) = nextId (handle b ev).
Proof.
  intros Ht Hn Hc. destruct ev as [value | | id0]; cbn [handle].
  - now cbn.
  - rewrite !tasks_addTask, !nextId_addTask, !newTask_addTask.
    now rewrite Ht, Hn, Hc.
  - rewrite !tasks_handleDelete, !nextId_handleDelete, !newTask_handleDelete.
    now rewrite Ht, Hn, Hc.
Qed.

(** X6.  The handlers never read the storage: two sessions with the same
    list, input and counter go through the same lists, inputs and
    counters under the same actions, whatever their storages hold.  What
    another writer puts in the slot during a session is not seen. *)
Theorem handlers_ignore_storage evs :
  forall a b,
    tasks a = tasks b -> newTask a = newTask b -> nextId a = nextId b ->
    tasks (run evs a) = tasks (run evs b)
    /\ newTask (run evs a) = newTask (run evs b)
    /\ nextId (run evs a) = nextId (run evs b).
Proof.
  induction evs as [| ev evs IH]; intros a b Ht Hn Hc; [now repeat split |].
  rewrite !run_cons.
  destruct (handle_ignores_storage a b ev Ht Hn Hc) as (Ht' & Hn' & Hc').
  now apply IH.
Qed.

Lemma handlers_ignore_storage_witness :
  tasks (run [Change (js "a"); ClickAdd] (initial corrupted))
  = tasks (run [Change (js "a"); ClickAdd] (initial ∅))
  /\ newTask (run [Change (js "a"); ClickAdd] (initial corrupted))
     = newTask (run [Change (js "a"); ClickAdd] (initial ∅))
  /\ nextId (run [Change (js "a"); ClickAdd] (initial corrupted))
     = nextId (run [Change (js "a"); ClickAdd] (initial ∅)).
Proof.
  apply (handlers_ignore_storage _ (initial corrupted) (initial ∅));
    reflexivity.
Defined.

(** Whether a text fits the slot depends on the quota and on the other
    keys, which no handler touches. *)
Lemma fits_written text v (s : Storage.t) :
  Storage.fits (js "tasks") v
    (if Storage.fits (js "tasks") text s
     then {| Storage.items := <[js "tasks" := text]> (Storage.items s);
             Storage.quota := Storage.quota s |}
     else s)
  = Storage.fits (js "tasks") v s.
Proof.
  destruct (Storage.fits (js "tasks") text s); [| reflexivity].
  apply StorageFacts.fits_insert.
Qed.

Lemma fits_handle st ev v :
  Storage.fits (js "tasks") v (localStorage (handle st ev))
  = Storage.fits (js "tasks") v (localStorage st).
Proof.
  destruct ev as [value | | id0]; cbn [handle]; [reflexivity | |].
  - rewrite localStorage_addTask. apply fits_written.
  - rewrite localStorage_handleDelete. apply fits_written.
Qed.

Lemma fits_run evs v : forall st,
  Storage.fits (js "tasks") v (localStorage (run evs st))
  = Storage.fits (js "tasks") v (localStorage st).
Proof.
  induction evs as [| ev evs IH]; intros st; [reflexivity |].
  now rewrite run_cons, IH, fits_handle.
Qed.

(** Typing alone moves neither the list nor the storage. *)
Lemma typing_only evs : forall st,
  existsb is_mutation evs = false ->
  tasks (run evs st) = tasks st
  /\ nextId (run evs st) = nextId st
  /\ localStorage (run evs st) = localStorage st.
Proof.
  induction evs as [| ev evs IH]; intros st H; [now repeat split |].
  cbn [existsb] in H. apply orb_false_elim in H as [Hev Hevs].
  rewrite run_cons.
  destruct ev as [value | | id0]; cbn [is_mutation] in Hev; try discriminate.
  cbn [handle]. destruct (IH (setNewTask value st) Hevs) as (-> & -> & ->).
  now repeat split.
Qed.

Lemma persisted_mutation st ev :
  is_mutation ev = true ->
  Storage.fits (js "tasks") (JSON.stringify (tasks (handle st ev)))
    (localStorage st) = true ->
  persisted (handle st ev).
Proof.
  destruct ev as [value | | id0]; cbn [handle is_mutation];
    [discriminate | intros _ | intros _].
  - apply persisted_addTask.
  - apply persisted_handleDelete.
Qed.

(** X7.  Once a list has been added to or deleted from, the slot follows
    it as far as the storage takes the text: after a sequence of actions
    that contains a click on [Add] or on a delete control, if the text
    of the list in memory fits the storage, the slot holds it.  Typing
    alone never writes. *)
Theorem persisted_after_mutation st evs :
  (existsb is_mutation evs = true ->
   Storage.fits (js "tasks") (JSON.stringify (tasks (run evs st)))
     (localStorage st) = true ->
   persisted (run evs st))
  /\ (existsb is_mutation evs = false ->
      localStorage (run evs st) = localStorage st).
Proof.
  split; [| intros H; apply (typing_only evs st H)].
  revert st. induction evs as [| ev evs IH]; intros st H Hfit;
    [discriminate |].
  rewrite run_cons in *.
  destruct (existsb is_mutation evs) eqn:Hevs.
  - apply IH; [reflexivity |]. now rewrite fits_handle.
  - cbn [existsb] in H. rewrite Hevs, orb_false_r in H.
    destruct (typing_only evs (handle st ev) Hevs) as (Ht & _ & Hls).
    unfold persisted. rewrite Ht, Hls in *.
    now apply persisted_mutation.
Qed.

Lemma persisted_after_mutation_witness :
  existsb is_mutation [Change (js "a"); ClickDelete 7; Change (js "b")] = true
  /\ Storage.fits (js "tasks")
       (JSON.stringify (tasks
          (run [Change (js "a"); ClickDelete 7; Change (js "b")]
               (initial corrupted))))
       (localStorage (initial corrupted)) = true
  /\ persisted (run [Change (js "a"); ClickDelete 7; Change (js "b")]
                    (initial corrupted)).
Proof.
  assert (Hmut : existsb is_mutation
            [Change (js "a"); ClickDelete 7; Change (js "b")] = true)
    by reflexivity.
  assert (Hfit : Storage.fits (js "tasks")
       (JSON.stringify (tasks
          (run [Change (js "a"); ClickDelete 7; Change (js "b")]
               (initial corrupted))))
       (localStorage (initial corrupted)) = true)
    by (vm_compute; reflexivity).
  split; [exact Hmut |]. split; [exact Hfit |].
  exact (proj1 (persisted_after_mutation (initial corrupted) _) Hmut Hfit).
Defined.

(** ** Reloading the page *)

(** X8.  A reload brings the list back.  Take a state whose slot holds
    the serialisation of the list, whose ids are within 2^53 and below
    the counter, and whose counter is between 1 and 2^53.  Hydrating a
    fresh page from the same storage completes with the same list in the
    same order; the pending input is lost, and the counter is computed
    again from the ids: it is above every id, at least 1, and never
    above the counter the session had. *)
Theorem reload_restores st :
  persisted st ->
  (forall t, In t (tasks st) -> in_range (id t) = true) ->
  below_counter st ->
  (1 <= nextId st <= MAX_SAFE_INTEGER + 1)%Z ->
  exists st',
    initialize (initial (localStorage st)) = Done st'
    /\ tasks st' = tasks st
    /\ newTask st' = []
    /\ localStorage st' = localStorage st
    /\ (forall t, In t (tasks st) -> (id t < nextId st')%Z)
    /\ (1 <= nextId st' <= nextId st)%Z.
Proof.
  intros Hpers Hr Hinv Hc.
  eexists. split.
  { apply (initialize_stringify (initial (localStorage st)) (tasks st));
      [exact Hr | exact Hpers]. }
  cbn [tasks newTask nextId localStorage setNextId setTasks initial].
  pose proof (maxId_nonneg (tasks st)) as Hnn.
  pose proof (maxId_below (tasks st) (nextId st) Hinv (proj1 Hc)) as Hmax.
  rewrite NumberFacts.js_add_succ by lia.
  repeat split; try lia.
  intros t Hin. pose proof (maxId_upper _ t Hin). lia.
Qed.

Lemma reload_restores_witness :
  persisted (run [Change (js "a"); ClickAdd] (initial ∅))
  /\ exists st',
       initialize (initial (localStorage
         (run [Change (js "a"); ClickAdd] (initial ∅)))) = Done st'
       /\ tasks st' = tasks (run [Change (js "a"); ClickAdd] (initial ∅))
       /\ newTask st' = []
       /\ localStorage st'
          = localStorage (run [Change (js "a"); ClickAdd] (initial ∅))
       /\ (forall t,
             In t (tasks (run [Change (js "a"); ClickAdd] (initial ∅))) ->
             (id t < nextId st')%Z)
       /\ (1 <= nextId st'
           <= nextId (run [Change (js "a"); ClickAdd] (initial ∅)))%Z.
Proof.
  assert (Hpers : persisted (run [Change (js "a"); ClickAdd] (initial ∅)))
    by (vm_compute; reflexivity).
  assert (Hr : forall t,
            In t (tasks (run [Change (js "a"); ClickAdd] (initial ∅))) ->
            in_range (id t) = true).
  { intros t Hin. vm_compute in Hin. destruct Hin as [<- | []].
    vm_compute. reflexivity. }
  assert (Hinv : below_counter (run [Change (js "a"); ClickAdd] (initial ∅))).
  { intros t Hin. vm_compute in Hin. destruct Hin as [<- | []].
    vm_compute. reflexivity. }
  assert (Hc : (1 <= nextId (run [Change (js "a"); ClickAdd] (initial ∅))
                <= MAX_SAFE_INTEGER + 1)%Z)
    by (split; vm_compute; discriminate).
  split; [exact Hpers |].
  exact (reload_restores _ Hpers Hr Hinv Hc).
Defined.

Lemma undo_tasks st :
  below_counter st ->
  tasks (handleDelete (nextId st) (addTask st)) = tasks st.
Proof.
  intros Hinv. rewrite tasks_handleDelete, tasks_addTask, List.filter_app.
  cbn [List.filter id]. rewrite Z.eqb_refl. cbn [negb].
  rewrite app_nil_r. apply filter_keep_all.
  intros t Hin. specialize (Hinv t Hin). lia.
Qed.

Lemma undo_slot st :
  below_counter st ->
  Storage.fits (js "tasks") (JSON.stringify (tasks st)) (localStorage st)
  = true ->
  Storage.getItem (js "tasks")
    (localStorage (handleDelete (nextId st) (addTask st)))
  = Some (JSON.stringify (tasks st)).
Proof.
  intros Hinv Hfit.
  pose proof (persisted_handleDelete (addTask st) (nextId st)) as Hp.
  unfold persisted in Hp. rewrite (undo_tasks st Hinv) in Hp.
  apply Hp.
  change (addTask st) with (handle st ClickAdd).
  now rewrite fits_handle.
Qed.

(** X9.  Deleting the task just added undoes the addition, except for
    the counter: in a state whose ids are below the counter, [addTask]
    followed by [handleDelete] on the id it assigned gives back the list
    as it was, while the counter has moved as [addTask] moves it (one
    higher, below 2^53); and if the text of that list fits the storage,
    the slot holds it. *)
Theorem add_then_delete_restores st :
  below_counter st ->
  let st' := handleDelete (nextId st) (addTask st) in
  tasks st' = tasks st
  /\ nextId st' = js_add (nextId st) 1
  /\ ((- (MAX_SAFE_INTEGER + 1) <= nextId st <= MAX_SAFE_INTEGER)%Z ->
      nextId st' = (nextId st + 1)%Z)
  /\ (Storage.fits (js "tasks") (JSON.stringify (tasks st)) (localStorage st)
      = true ->
      Storage.getItem (js "tasks") (localStorage st')
      = Some (JSON.stringify (tasks st))).
Proof.
  intros Hinv. cbv zeta.
  split; [now apply undo_tasks |].
  rewrite nextId_handleDelete, nextId_addTask.
  split; [reflexivity |].
  split; [apply NumberFacts.js_add_succ | now apply undo_slot].
Qed.

Lemma add_then_delete_restores_witness :
  below_counter (addTitle (initial ∅) (js "a"))
  /\ tasks (handleDelete 2 (addTask (addTitle (initial ∅) (js "a"))))
     = [mkTask 1 (js "a") []].
Proof.
  assert (Hinv : below_counter (addTitle (initial ∅) (js "a"))).
  { intros t Hin. vm_compute in Hin. destruct Hin as [<- | []].
    vm_compute. reflexivity. }
  split; [exact Hinv |].
  exact (proj1 (add_then_delete_restores _ Hinv)).
Defined.

(** X10.  The counter is not stored, so a reload can hand out a deleted
    id again.  Right after a hydration that read ids below 2^53 - 1, add
    a task and delete it: within the session the counter has moved on,
    but if the storage takes the text of the list, a fresh page hydrated
    from it gets the old counter back, and the next task it adds carries
    the id of the deleted one. *)
Theorem id_reused_after_reload s0 st :
  initialize s0 = Done st ->
  (forall t, In t (tasks st) -> (id t < MAX_SAFE_INTEGER)%Z) ->
  Storage.fits (js "tasks") (JSON.stringify (tasks st)) (localStorage st)
  = true ->
  let gone := nextId st in
  let st2 := handleDelete gone (addTask st) in
  nextId st2 = (gone + 1)%Z
  /\ exists st3,
       initialize (initial (localStorage st2)) = Done st3
       /\ tasks st3 = tasks st
       /\ nextId st3 = gone
       /\ tasks (addTask st3) = tasks st ++ [mkTask gone [] []].
Proof.
  intros Hinit Hsafe Hfit. cbv zeta.
  assert (Hsafe' : forall t, In t (tasks st) -> (id t <= MAX_SAFE_INTEGER)%Z)
    by (intros t Hin; specialize (Hsafe t Hin); lia).
  destruct (hydrated_below_counter s0 st Hinit Hsafe') as [Hinv Hc].
  pose proof (undo_slot st Hinv Hfit) as Hslot.
  destruct (initialize_done s0 st Hinit) as (ts & Hst & Hr).
  assert (Hts : tasks st = ts) by (now rewrite Hst).
  assert (Hn : nextId st = js_add (maxId ts) 1) by (now rewrite Hst).
  assert (Hmax : (0 <= maxId ts < MAX_SAFE_INTEGER)%Z).
  { split; [apply maxId_nonneg |].
    destruct (maxId_attained ts) as [-> | (t & Hin & ->)];
      [unfold MAX_SAFE_INTEGER; lia | apply Hsafe; now rewrite Hts]. }
  rewrite NumberFacts.js_add_succ in Hn by (unfold MAX_SAFE_INTEGER in *; lia).
  split.
  { rewrite nextId_handleDelete, nextId_addTask.
    apply NumberFacts.js_add_succ. unfold MAX_SAFE_INTEGER in *. lia. }
  rewrite Hts in Hslot.
  eexists. split.
  { apply (initialize_stringify _ ts); [exact Hr | exact Hslot]. }
  rewrite tasks_addTask.
  cbn [tasks newTask nextId setNextId setTasks initial].
  rewrite NumberFacts.js_add_succ by (unfold MAX_SAFE_INTEGER in *; lia).
  rewrite Hts, Hn. now repeat split.
Qed.

Lemma id_reused_after_reload_witness :
  initialize (initial ∅) = Done (initial ∅)
  /\ exists st3,
       initialize (initial (localStorage
         (handleDelete 1 (addTask (initial ∅))))) = Done st3
       /\ tasks st3 = []
       /\ nextId st3 = 1%Z
       /\ tasks (addTask st3) = [mkTask 1 [] []].
Proof.
  assert (Hinit : initialize (initial ∅) = Done (initial ∅))
    by (vm_compute; reflexivity).
  assert (Hsafe : forall t, In t (tasks (initial ∅)) ->
                            (id t < MAX_SAFE_INTEGER)%Z) by (intros t []).
  assert (Hfit : Storage.fits (js "tasks")
                   (JSON.stringify (tasks (initial ∅)))
                   (localStorage (initial ∅)) = true)
    by (vm_compute; reflexivity).
  split; [exact Hinit |].
  exact (proj2 (id_reused_after_reload (initial ∅) (initial ∅)
                  Hinit Hsafe Hfit)).
Defined.

(** X11.  Running the hydration effect again changes nothing: the state
    it completes with makes it complete with that same state, and it
    leaves the storage and the pending input as they were. *)
Theorem initialize_idempotent st st' :
  initialize st = Done st' ->
  initialize st' = Done st'
  /\ localStorage st' = localStorage st
  /\ newTask st' = newTask st.
Proof.
  intros Hinit.
  destruct (initialize_done st st' Hinit) as (ts & Hst & _).
  split; [| rewrite Hst; now split].
  unfold initialize in *.
  replace (localStorage st') with (localStorage st) by (now rewrite Hst).
  destruct (JSON.parse _) as [parsed |]; [| discriminate].
  destruct (as_tasks _) as [savedTasks |];
    [| destruct (is_array _); discriminate].
  injection Hinit as Hinit. f_equal. rewrite <- Hinit. reflexivity.
Qed.

Lemma initialize_idempotent_witness :
  initialize (initial (Storage.of_items {[ js "tasks" := spaced_text ]}))
  = Done {| tasks := [mkTask 7 (js "tA") []]; newTask := []; nextId := 8;
            localStorage :=
              Storage.of_items {[ js "tasks" := spaced_text ]} |}
  /\ initialize
       {| tasks := [mkTask 7 (js "tA") []]; newTask := []; nextId := 8;
          localStorage := Storage.of_items {[ js "tasks" := spaced_text ]} |}
     = Done {| tasks := [mkTask 7 (js "tA") []]; newTask := []; nextId := 8;
               localStorage :=
                 Storage.of_items {[ js "tasks" := spaced_text ]} |}.
Proof.
  assert (Hinit :
    initialize (initial (Storage.of_items {[ js "tasks" := spaced_text ]}))
    = Done {| tasks := [mkTask 7 (js "tA") []]; newTask := []; nextId := 8;
              localStorage :=
                Storage.of_items {[ js "tasks" := spaced_text ]} |})
    by (vm_compute; reflexivity).
  split; [exact Hinit |].
  exact (proj1 (initialize_idempotent _ _ Hinit)).
Defined.

(** ** Deleting twice *)

(** The storage after two writes to the slot, the second of a text no
    longer than the first: what is left is decided by the second. *)
Lemma written_twice v w (s : Storage.t) :
  (length w <= length v)%nat ->
  (let s1 := if Storage.fits (js "tasks") v s
             then {| Storage.items := <[js "tasks" := v]> (Storage.items s);
                     Storage.quota := Storage.quota s |}
             else s in
   if Storage.fits (js "tasks") w s1
   then {| Storage.items := <[js "tasks" := w]> (Storage.items s1);
           Storage.quota := Storage.quota s1 |}
   else s1)
  = if Storage.fits (js "tasks") w s
    then {| Storage.items := <[js "tasks" := w]> (Storage.items s);
            Storage.quota := Storage.quota s |}
    else s.
Proof.
  intros Hlen. cbv zeta.
  destruct (Storage.fits (js "tasks") v s) eqn:Hv.
  - rewrite StorageFacts.fits_insert.
    destruct (Storage.fits (js "tasks") w s) eqn:Hw.
    + apply StorageFacts.eq_parts; cbn [Storage.items Storage.quota];
        [apply insert_insert_eq | reflexivity].
    + now rewrite (StorageFacts.fits_shorter _ w v s Hlen Hv) in Hw.
  - reflexivity.
Qed.

Lemma localStorage_delete_delete st a b :
  localStorage (handleDelete a (handleDelete b st))
  = if Storage.fits (js "tasks")
         (JSON.stringify (tasks (handleDelete a (handleDelete b st))))
         (localStorage st)
    then {| Storage.items :=
              <[js "tasks" :=
                  JSON.stringify (tasks (handleDelete a (handleDelete b st)))]>
                (Storage.items (localStorage st));
            Storage.quota := Storage.quota (localStorage st) |}
    else localStorage st.
Proof.
  rewrite (localStorage_handleDelete (handleDelete b st) a).
  rewrite (localStorage_handleDelete st b).
  apply (written_twice (JSON.stringify (tasks (handleDelete b st)))
           (JSON.stringify (tasks (handleDelete a (handleDelete b st))))).
  rewrite (tasks_handleDelete (handleDelete b st) a).
  apply length_stringify_filter.
Qed.

(** X12.  Deletions compose: deleting the same id a second time changes
    nothing, neither in memory nor in storage, and two deletions give
    the same state in either order. *)
Theorem handleDelete_twice st a b :
  handleDelete a (handleDelete a st) = handleDelete a st
  /\ handleDelete a (handleDelete b st) = handleDelete b (handleDelete a st).
Proof.
  assert (Hsame : tasks (handleDelete a (handleDelete a st))
                  = tasks (handleDelete a st))
    by (rewrite !tasks_handleDelete; apply filter_again).
  assert (Hswap : tasks (handleDelete a (handleDelete b st))
                  = tasks (handleDelete b (handleDelete a st)))
    by (rewrite !tasks_handleDelete; apply filter_twice).
  split; apply state_eq;
    rewrite ?nextId_handleDelete, ?newTask_handleDelete; try reflexivity.
  - exact Hsame.
  - rewrite localStorage_delete_delete, Hsame.
    now rewrite (localStorage_handleDelete st a).
  - exact Hswap.
  - rewrite !localStorage_delete_delete. now rewrite Hswap.
Qed.

(** ** The stored text *)

(** X13.  The text written to the slot determines the list: two lists of
    tasks with the same serialisation are equal, so different lists are
    never stored as the same text. *)
Theorem stringify_injective ts1 ts2 :
  JSON.stringify ts1 = JSON.stringify ts2 -> ts1 = ts2.
Proof.
  intros Heq.
  pose proof (JSONFacts.parse_stringify ts1) as H1.
  rewrite Heq, JSONFacts.parse_stringify in H1.
  injection H1 as H1.
  now apply JSONFacts.map_task_json_inj.
Qed.

Lemma stringify_injective_witness :
  JSON.stringify [mkTask 5 (js "x") []] = singleton_text
  /\ (forall ts, JSON.stringify ts = singleton_text ->
                 ts = [mkTask 5 (js "x") []]).
Proof.
  split; [reflexivity |].
  intros ts Hts. apply (stringify_injective ts [mkTask 5 (js "x") []]).
  rewrite Hts. reflexivity.
Defined.
